(** * Remote-Job-Executor: the queue and worker engine

    A shallow embedding of [src/classes/job.ts] (classes [Job] and
    [Worker]) and of the remote executor, over an explicit model of the
    PostgreSQL tables declared by the Prisma schema ([job], [job_log],
    [queue]).

    Conventions of the model.
    - A SQL table is the list of its rows, in the order in which a scan
      visits them.
    - Integers (ids, priorities, counters, sequence numbers) are in [Z];
      the 32-bit range of the columns is not modelled.
    - Times are milliseconds in [Z]; every reading of a clock
      ([new Date()], [NOW()], the ORM's [@updatedAt]) is an argument of the
      operation that makes it.
    - Every statement and every [prisma.$transaction] block runs atomically:
      an operation maps a store to a store, or throws and leaves the store
      as it was (rollback).  Row locks ([FOR UPDATE], [SKIP LOCKED]) have no
      effect in such a run, and are not represented.
    - In the [data] of an ORM update or create, [null] stores NULL, also
      in the JSON column [args].
    - The unique index on [job.custom_id] and the uuid key of [job_log] are
      not modelled. *)

From Stdlib Require Import ZArith String Ascii List Lia.
From stdpp Require Import base tactics option list sorting numbers strings pretty gmap.

Local Open Scope string_scope.
Local Open Scope list_scope.
Local Open Scope Z_scope.

(** ** JavaScript values *)

(** A property typed [T | null | undefined].  The distinction matters for
    the ORM: in the [data] of an update, [undefined] leaves the column as it
    is, [null] stores NULL. *)
Inductive js (A : Type) : Type :=
  | undefined
  | null
  | val (a : A).
Arguments undefined {A}.
Arguments null {A}.
Arguments val {A} a.

Global Instance js_eq_dec {A} `{EqDecision A} : EqDecision (js A).
Proof. solve_decision. Defined.

(** The value of a nullable column as the driver hands it to JavaScript. *)
Definition of_column {A} (c : option A) : js A :=
  match c with
  | Some a => val a
  | None => null
  end.

(** [x ?? d] *)
Definition nullish {A} (x : js A) (d : A) : A :=
  match x with
  | val a => a
  | _ => d
  end.

(** Truthiness of a string and of a number. *)
Definition truthy_string (x : js string) : bool :=
  match x with
  | val s => negb (String.eqb s "")
  | _ => false
  end.

Definition truthy_number (x : js Z) : bool :=
  match x with
  | val n => negb (n =? 0)
  | _ => false
  end.

(** [a || b] on strings. *)
Definition or_string (a b : js string) : js string :=
  if truthy_string a then a else b.

(** ** Errors and results *)

Inductive JobStatus : Type :=
  | PENDING
  | RUNNING
  | COMPLETED
  | FAILED
  | STALLED
  | CANCELLED.

Global Instance JobStatus_eq_dec : EqDecision JobStatus.
Proof. solve_decision. Defined.

(** A JavaScript [Error] object as [moveToFailed] reads it. *)
Record JsError : Type := {
  message : js string;
  stack : js string;
  toString : string
}.

Inductive error : Type :=
  | JobIdRequired
  | RecordNotFound                      (* ORM: no row matches [where] *)
  | ConnectNotFound                     (* ORM: no row to [connect] to *)
  | UndefinedRelation (rel : string)    (* SQL: relation does not exist *)
  | ForeignKeyViolation
  | UniqueViolation
  | NegativeSkip
  | NegativeLimit
  | JobNotFound (jobId : Z)
  | NotCancellable (jobId : Z) (current : JobStatus)
  | JobTimedOut
  | Raised (e : JsError)
  | Wrapped (context : string) (cause : error).

Inductive result (A : Type) : Type :=
  | Ok (a : A)
  | Throw (e : error).
Arguments Ok {A} a.
Arguments Throw {A} e.

Global Instance result_ret : MRet result := fun _ a => Ok a.
Global Instance result_bind : MBind result := fun _ _ f m =>
  match m with
  | Ok a => f a
  | Throw e => Throw e
  end.
Global Instance result_fmap : FMap result := fun _ _ f m =>
  match m with
  | Ok a => Ok (f a)
  | Throw e => Throw e
  end.

(** [try { m } catch (error) { throw new Error(`context: ${error}`) }] *)
Definition rethrow {A} (context : string) (m : result A) : result A :=
  match m with
  | Ok a => Ok a
  | Throw e => Throw (Wrapped context e)
  end.

(** ** The tables *)

(** A row of table [job] (model [Job] of the schema). *)
Module Row.
Record t : Type := mk {
  id : Z;
  custom_id : option string;
  name : string;
  command : string;
  args : option (list string);
  working_dir : option string;
  timeout : option Z;
  std_out : option string;
  std_err : option string;
  exit_code : option Z;
  status : JobStatus;
  priority : Z;
  max_attempts : Z;
  attempts_made : Z;
  created_at : Z;
  updated_at : Z;
  processed_on : option Z;
  finished_on : option Z;
  failed_reason : option string;
  stack_trace : option string;
  lock_token : option string;
  keep_logs : option Z;
  queue_id : Z
}.
End Row.

(** A row of table [job_log]. *)
Module LogRow.
Record t : Type := mk {
  job_id : Z;
  message : string;
  sequence : Z;
  created_at : Z
}.
End LogRow.

(** A row of table [queue]; only the columns the engine reads. *)
Module QueueRow.
Record t : Type := mk {
  id : Z;
  name : string
}.
End QueueRow.

(** The store: the three tables, the serial of [job.id] and the
    notifications published so far (channel, payload), newest last. *)
Record Store : Type := {
  jobs : list Row.t;
  job_logs : list LogRow.t;
  queues : list QueueRow.t;
  job_id_seq : Z;
  notifications : list (string * string)
}.

Definition with_jobs (s : Store) (l : list Row.t) : Store :=
  {| jobs := l; job_logs := job_logs s; queues := queues s;
     job_id_seq := job_id_seq s; notifications := notifications s |}.

Definition with_job_logs (s : Store) (l : list LogRow.t) : Store :=
  {| jobs := jobs s; job_logs := l; queues := queues s;
     job_id_seq := job_id_seq s; notifications := notifications s |}.

Definition with_notification (s : Store) (n : string * string) : Store :=
  {| jobs := jobs s; job_logs := job_logs s; queues := queues s;
     job_id_seq := job_id_seq s; notifications := notifications s ++ [n] |}.

(** *** Relation names in raw SQL

    [@@map("job")], [@@map("job_log")] and [@@map("queue")] name the
    tables.  An unquoted identifier is folded to lower case, a quoted one is
    taken as written. *)
Inductive ident : Type :=
  | Unquoted (s : string)
  | Quoted (s : string).

Definition lower_ascii (c : ascii) : ascii :=
  let n := nat_of_ascii c in
  if (Nat.leb 65 n && Nat.leb n 90)%bool then ascii_of_nat (n + 32) else c.

Fixpoint lower (s : string) : string :=
  match s with
  | EmptyString => EmptyString
  | String c r => String (lower_ascii c) (lower r)
  end.

Definition relation_name (i : ident) : string :=
  match i with
  | Unquoted s => lower s
  | Quoted s => s
  end.

Definition catalog : list string := ["job"; "job_log"; "queue"; "system_metric"].

Definition from_relation (i : ident) : result unit :=
  if bool_decide (relation_name i ∈ catalog) then Ok tt
  else Throw (UndefinedRelation (relation_name i)).

(** *** Lookups *)

Definition has_id (i : Z) (r : Row.t) : bool := Row.id r =? i.

Definition find_job (i : Z) (s : Store) : option Row.t :=
  List.find (has_id i) (jobs s).

Definition queue_exists (q : Z) (s : Store) : bool :=
  existsb (fun r => QueueRow.id r =? q) (queues s).

(** [(SELECT id FROM queue WHERE name = $2)]; [queue.name] is unique. *)
Definition queue_id_of_name (n : string) (s : Store) : option Z :=
  QueueRow.id <$> List.find (fun r => String.eqb (QueueRow.name r) n) (queues s).

(** *** [prisma.job.update] *)

(** The [data] of an update: a key that is absent or [undefined] leaves the
    column alone. *)
Record JobUpdateInput : Type := {
  u_custom_id : js string;
  u_name : option string;
  u_command : option string;
  u_args : js (list string);
  u_working_dir : js string;
  u_timeout : js Z;
  u_status : option JobStatus;
  u_priority : option Z;
  u_std_out : js string;
  u_std_err : js string;
  u_exit_code : js Z;
  u_max_attempts : option Z;
  u_attempts_made : option Z;
  u_processed_on : js Z;
  u_finished_on : js Z;
  u_failed_reason : js string;
  u_stack_trace : js string;
  u_lock_token : js string;
  u_keep_logs : js Z;
  u_queue_connect : option Z
}.

Definition set_nullable {A} (d : js A) (old : option A) : option A :=
  match d with
  | undefined => old
  | null => None
  | val a => Some a
  end.

Definition set_required {A} (d : option A) (old : A) : A :=
  match d with
  | Some a => a
  | None => old
  end.

(** The row after an update at time [tu]; [updated_at] is [@updatedAt]. *)
Definition apply_update (d : JobUpdateInput) (tu : Z) (r : Row.t) : Row.t :=
  {| Row.id := Row.id r;
     Row.custom_id := set_nullable (u_custom_id d) (Row.custom_id r);
     Row.name := set_required (u_name d) (Row.name r);
     Row.command := set_required (u_command d) (Row.command r);
     Row.args := set_nullable (u_args d) (Row.args r);
     Row.working_dir := set_nullable (u_working_dir d) (Row.working_dir r);
     Row.timeout := set_nullable (u_timeout d) (Row.timeout r);
     Row.std_out := set_nullable (u_std_out d) (Row.std_out r);
     Row.std_err := set_nullable (u_std_err d) (Row.std_err r);
     Row.exit_code := set_nullable (u_exit_code d) (Row.exit_code r);
     Row.status := set_required (u_status d) (Row.status r);
     Row.priority := set_required (u_priority d) (Row.priority r);
     Row.max_attempts := set_required (u_max_attempts d) (Row.max_attempts r);
     Row.attempts_made := set_required (u_attempts_made d) (Row.attempts_made r);
     Row.created_at := Row.created_at r;
     Row.updated_at := tu;
     Row.processed_on := set_nullable (u_processed_on d) (Row.processed_on r);
     Row.finished_on := set_nullable (u_finished_on d) (Row.finished_on r);
     Row.failed_reason := set_nullable (u_failed_reason d) (Row.failed_reason r);
     Row.stack_trace := set_nullable (u_stack_trace d) (Row.stack_trace r);
     Row.lock_token := set_nullable (u_lock_token d) (Row.lock_token r);
     Row.keep_logs := set_nullable (u_keep_logs d) (Row.keep_logs r);
     Row.queue_id := set_required (u_queue_connect d) (Row.queue_id r) |}.

(** Rewrite the rows that satisfy [p]. *)
Definition update_rows (p : Row.t → bool) (f : Row.t → Row.t)
    (l : list Row.t) : list Row.t :=
  (fun r => if p r then f r else r) <$> l.

(** [db.job.update({ where: { id }, data })] *)
Definition job_update (i : Z) (d : JobUpdateInput) (tu : Z) (s : Store)
    : result Store :=
  match find_job i s with
  | None => Throw RecordNotFound
  | Some _ =>
      if match u_queue_connect d with
         | Some q => queue_exists q s
         | None => true
         end
      then Ok (with_jobs s (update_rows (has_id i) (apply_update d tu) (jobs s)))
      else Throw ConnectNotFound
  end.

(** [SELECT ... FROM rel WHERE id = $1 FOR UPDATE]: the rows found, as the
    array the driver returns. *)
Definition select_job_for_update (rel : ident) (i : Z) (s : Store)
    : result (list Row.t) :=
  _ ← from_relation rel; Ok (filter (fun r => Row.id r = i) (jobs s)).

(** ** Class [Job] *)

Module Job.

(** The fields of a [Job] object. *)
Record t : Type := mk {
  id : js Z;
  customId : js string;
  name : string;
  command : string;
  args : js (list string);
  workingDir : js string;
  timeout : js Z;
  status : JobStatus;
  priority : Z;
  stdOut : js string;
  stdErr : js string;
  exitCode : js Z;
  maxAttempts : Z;
  attemptsMade : Z;
  createdAt : js Z;
  updatedAt : js Z;
  processedOn : js Z;
  finishedOn : js Z;
  failedReason : js string;
  stackTrace : js string;
  lockToken : js string;
  keepLogs : Z;
  queueId : Z
}.

(** Assignments [this.f = v]. *)
Definition set_id v j :=
  mk v (customId j) (name j) (command j) (args j) (workingDir j) (timeout j)
    (status j) (priority j) (stdOut j) (stdErr j) (exitCode j)
    (maxAttempts j) (attemptsMade j) (createdAt j) (updatedAt j)
    (processedOn j) (finishedOn j) (failedReason j) (stackTrace j)
    (lockToken j) (keepLogs j) (queueId j).
Definition set_status v j :=
  mk (id j) (customId j) (name j) (command j) (args j) (workingDir j)
    (timeout j) v (priority j) (stdOut j) (stdErr j) (exitCode j)
    (maxAttempts j) (attemptsMade j) (createdAt j) (updatedAt j)
    (processedOn j) (finishedOn j) (failedReason j) (stackTrace j)
    (lockToken j) (keepLogs j) (queueId j).
Definition set_stdOut v j :=
  mk (id j) (customId j) (name j) (command j) (args j) (workingDir j)
    (timeout j) (status j) (priority j) v (stdErr j) (exitCode j)
    (maxAttempts j) (attemptsMade j) (createdAt j) (updatedAt j)
    (processedOn j) (finishedOn j) (failedReason j) (stackTrace j)
    (lockToken j) (keepLogs j) (queueId j).
Definition set_stdErr v j :=
  mk (id j) (customId j) (name j) (command j) (args j) (workingDir j)
    (timeout j) (status j) (priority j) (stdOut j) v (exitCode j)
    (maxAttempts j) (attemptsMade j) (createdAt j) (updatedAt j)
    (processedOn j) (finishedOn j) (failedReason j) (stackTrace j)
    (lockToken j) (keepLogs j) (queueId j).
Definition set_exitCode v j :=
  mk (id j) (customId j) (name j) (command j) (args j) (workingDir j)
    (timeout j) (status j) (priority j) (stdOut j) (stdErr j) v
    (maxAttempts j) (attemptsMade j) (createdAt j) (updatedAt j)
    (processedOn j) (finishedOn j) (failedReason j) (stackTrace j)
    (lockToken j) (keepLogs j) (queueId j).
Definition set_attemptsMade v j :=
  mk (id j) (customId j) (name j) (command j) (args j) (workingDir j)
    (timeout j) (status j) (priority j) (stdOut j) (stdErr j) (exitCode j)
    (maxAttempts j) v (createdAt j) (updatedAt j)
    (processedOn j) (finishedOn j) (failedReason j) (stackTrace j)
    (lockToken j) (keepLogs j) (queueId j).
Definition set_createdAt v j :=
  mk (id j) (customId j) (name j) (command j) (args j) (workingDir j)
    (timeout j) (status j) (priority j) (stdOut j) (stdErr j) (exitCode j)
    (maxAttempts j) (attemptsMade j) v (updatedAt j)
    (processedOn j) (finishedOn j) (failedReason j) (stackTrace j)
    (lockToken j) (keepLogs j) (queueId j).
Definition set_updatedAt v j :=
  mk (id j) (customId j) (name j) (command j) (args j) (workingDir j)
    (timeout j) (status j) (priority j) (stdOut j) (stdErr j) (exitCode j)
    (maxAttempts j) (attemptsMade j) (createdAt j) v
    (processedOn j) (finishedOn j) (failedReason j) (stackTrace j)
    (lockToken j) (keepLogs j) (queueId j).
Definition set_processedOn v j :=
  mk (id j) (customId j) (name j) (command j) (args j) (workingDir j)
    (timeout j) (status j) (priority j) (stdOut j) (stdErr j) (exitCode j)
    (maxAttempts j) (attemptsMade j) (createdAt j) (updatedAt j)
    v (finishedOn j) (failedReason j) (stackTrace j)
    (lockToken j) (keepLogs j) (queueId j).
Definition set_finishedOn v j :=
  mk (id j) (customId j) (name j) (command j) (args j) (workingDir j)
    (timeout j) (status j) (priority j) (stdOut j) (stdErr j) (exitCode j)
    (maxAttempts j) (attemptsMade j) (createdAt j) (updatedAt j)
    (processedOn j) v (failedReason j) (stackTrace j)
    (lockToken j) (keepLogs j) (queueId j).
Definition set_failedReason v j :=
  mk (id j) (customId j) (name j) (command j) (args j) (workingDir j)
    (timeout j) (status j) (priority j) (stdOut j) (stdErr j) (exitCode j)
    (maxAttempts j) (attemptsMade j) (createdAt j) (updatedAt j)
    (processedOn j) (finishedOn j) v (stackTrace j)
    (lockToken j) (keepLogs j) (queueId j).
Definition set_stackTrace v j :=
  mk (id j) (customId j) (name j) (command j) (args j) (workingDir j)
    (timeout j) (status j) (priority j) (stdOut j) (stdErr j) (exitCode j)
    (maxAttempts j) (attemptsMade j) (createdAt j) (updatedAt j)
    (processedOn j) (finishedOn j) (failedReason j) v
    (lockToken j) (keepLogs j) (queueId j).
Definition set_lockToken v j :=
  mk (id j) (customId j) (name j) (command j) (args j) (workingDir j)
    (timeout j) (status j) (priority j) (stdOut j) (stdErr j) (exitCode j)
    (maxAttempts j) (attemptsMade j) (createdAt j) (updatedAt j)
    (processedOn j) (finishedOn j) (failedReason j) (stackTrace j)
    v (keepLogs j) (queueId j).
(** The options bag [JobOptions]. *)
Record JobOptions : Type := {
  o_customId : js string;
  o_priority : js Z;
  o_maxAttempts : js Z;
  o_timeout : js Z;
  o_workingDir : js string;
  o_keepLogs : js Z
}.

(** [new Job(name, command, queueId, args, options)] *)
Definition new (name command : string) (queueId : Z) (args : js (list string))
    (options : JobOptions) : t :=
  {| id := undefined;
     customId := o_customId options;
     name := name;
     command := command;
     args := args;
     workingDir := o_workingDir options;
     timeout := o_timeout options;
     status := PENDING;
     priority := nullish (o_priority options) 0;
     stdOut := undefined;
     stdErr := undefined;
     exitCode := undefined;
     maxAttempts := nullish (o_maxAttempts options) 1;
     attemptsMade := 0;
     createdAt := undefined;
     updatedAt := undefined;
     processedOn := undefined;
     finishedOn := undefined;
     failedReason := undefined;
     stackTrace := undefined;
     lockToken := undefined;
     keepLogs := nullish (o_keepLogs options) 50;
     queueId := queueId |}.

(** The literal [jobData] of [save]. *)
Definition jobData (j : t) : JobUpdateInput :=
  {| u_custom_id := customId j;
     u_name := Some (name j);
     u_command := Some (command j);
     u_args := args j;
     u_working_dir := workingDir j;
     u_timeout := timeout j;
     u_status := Some (status j);
     u_priority := Some (priority j);
     u_std_out := stdOut j;
     u_std_err := stdErr j;
     u_exit_code := exitCode j;
     u_max_attempts := Some (maxAttempts j);
     u_attempts_made := Some (attemptsMade j);
     u_processed_on := processedOn j;
     u_finished_on := finishedOn j;
     u_failed_reason := failedReason j;
     u_stack_trace := stackTrace j;
     u_lock_token := lockToken j;
     u_keep_logs := val (keepLogs j);
     u_queue_connect := Some (queueId j) |}.

(** [db.job.create({ data: jobData })]: the new row; a key that is
    [undefined] or [null] gives NULL. *)
Definition created_row (i now : Z) (j : t) : Row.t :=
  {| Row.id := i;
     Row.custom_id := set_nullable (customId j) None;
     Row.name := name j;
     Row.command := command j;
     Row.args := set_nullable (args j) None;
     Row.working_dir := set_nullable (workingDir j) None;
     Row.timeout := set_nullable (timeout j) None;
     Row.std_out := set_nullable (stdOut j) None;
     Row.std_err := set_nullable (stdErr j) None;
     Row.exit_code := set_nullable (exitCode j) None;
     Row.status := status j;
     Row.priority := priority j;
     Row.max_attempts := maxAttempts j;
     Row.attempts_made := attemptsMade j;
     Row.created_at := now;
     Row.updated_at := now;
     Row.processed_on := set_nullable (processedOn j) None;
     Row.finished_on := set_nullable (finishedOn j) None;
     Row.failed_reason := set_nullable (failedReason j) None;
     Row.stack_trace := set_nullable (stackTrace j) None;
     Row.lock_token := set_nullable (lockToken j) None;
     Row.keep_logs := Some (keepLogs j);
     Row.queue_id := queueId j |}.

Definition job_create (now : Z) (j : t) (s : Store) : result (Row.t * Store) :=
  if queue_exists (queueId j) s then
    let r := created_row (job_id_seq s) now j in
    Ok (r, {| jobs := jobs s ++ [r]; job_logs := job_logs s;
              queues := queues s; job_id_seq := job_id_seq s + 1;
              notifications := notifications s |})
  else Throw ConnectNotFound.

(** [save(transaction)]: the object after the call and the store, or the
    error thrown. *)
Definition save (now : Z) (j : t) (s : Store) : t * result Store :=
  if truthy_number (id j) then
    match job_update (nullish (id j) 0) (jobData j) now s with
    | Ok s' => (set_updatedAt (val now) j, Ok s')
    | Throw e => (j, Throw (Wrapped "Error saving job" e))
    end
  else
    match job_create now j s with
    | Ok (r, s') =>
        (set_updatedAt (val (Row.updated_at r))
           (set_createdAt (val (Row.created_at r))
              (set_id (val (Row.id r)) j)), Ok s')
    | Throw e => (j, Throw (Wrapped "Error saving job" e))
    end.

(** [notifyNewJob()] *)
Definition notifyNewJob (j : t) (s : Store) : Store :=
  with_notification s ("new_job", name j).

(** [moveToRunning(lockToken)]; [now] is the reading of [new Date()]
    and [tu] the time of the update. *)
Definition moveToRunning (lockToken : string) (now tu : Z) (j : t) (s : Store)
    : t * result Store :=
  if negb (truthy_number (id j)) then (j, Throw JobIdRequired)
  else
    match select_job_for_update (Unquoted "job") (nullish (id j) 0) s with
    | Throw e => (j, Throw (Wrapped "Error moving job to running" e))
    | Ok _ =>
        (* [!job] is false for every array, also the empty one *)
        let j := set_status RUNNING j in
        let j := set_lockToken (val lockToken) j in
        let j := set_processedOn (val now) j in
        let j := set_attemptsMade (attemptsMade j + 1) j in
        let (j, r) := save tu j s in
        (j, rethrow "Error moving job to running" r)
    end.

(** [moveToCompleted(exitCode = 0, stdOut, stdErr)] *)
Definition moveToCompleted (exitCode : js Z) (stdOut stdErr : js string)
    (now tu : Z) (j : t) (s : Store) : t * result Store :=
  let exitCode := match exitCode with undefined => val 0 | given => given end in
  if negb (truthy_number (id j)) then (j, Throw JobIdRequired)
  else
    match select_job_for_update (Unquoted "job") (nullish (id j) 0) s with
    | Throw e => (j, Throw (Wrapped "Error moving job to completed" e))
    | Ok _ =>
        let j := set_status COMPLETED j in
        let j := set_exitCode exitCode j in
        let j := set_finishedOn (val now) j in
        let j := set_lockToken null j in
        let j := set_stdOut stdOut j in
        let j := set_stdErr stdErr j in
        let (j, r) := save tu j s in
        (j, rethrow "Error moving job to completed" r)
    end.

(** [shouldRetry()] *)
Definition shouldRetry (j : t) : bool := attemptsMade j <? maxAttempts j.

(** [moveToFailed(error, exitCode, stdOut, stdErr)]; [tp] and [tf] are the
    two readings of [new Date()]. *)
Definition moveToFailed (error : JsError) (exitCode : js Z)
    (stdOut stdErr : js string) (tp tf tu : Z) (j : t) (s : Store)
    : t * result Store :=
  if negb (truthy_number (id j)) then (j, Throw JobIdRequired)
  else
    match select_job_for_update (Unquoted "job") (nullish (id j) 0) s with
    | Throw e => (j, Throw (Wrapped "Error moving job to failed" e))
    | Ok _ =>
        let j := set_failedReason (val (nullish (message error) (toString error))) j in
        let j := set_stackTrace (val (nullish (stack error) (toString error))) j in
        let j := set_exitCode exitCode j in
        let j := set_lockToken null j in
        let j := set_stdOut stdOut j in
        let j := set_stdErr stdErr j in
        let j := set_processedOn (val tp) j in
        let j := set_finishedOn (val tf) j in
        if shouldRetry j then
          let j := set_status PENDING j in
          let j := set_finishedOn undefined j in
          let j := set_lockToken null j in
          let j := set_processedOn undefined j in
          let j := set_failedReason undefined j in
          let j := set_stackTrace undefined j in
          let (j, r) := save tu j s in
          (j, rethrow "Error moving job to failed" (notifyNewJob j <$> r))
        else
          let j := set_status FAILED j in
          let (j, r) := save tu j s in
          (j, rethrow "Error moving job to failed" r)
    end.

(** [static retry(jobId)] *)
Definition retry_data : JobUpdateInput :=
  {| u_custom_id := undefined; u_name := None; u_command := None;
     u_args := undefined; u_working_dir := undefined; u_timeout := undefined;
     u_status := Some PENDING; u_priority := None; u_std_out := undefined;
     u_std_err := undefined; u_exit_code := null;
     u_max_attempts := None; u_attempts_made := None;
     u_processed_on := undefined; u_finished_on := null;
     u_failed_reason := null; u_stack_trace := null;
     u_lock_token := null; u_keep_logs := undefined;
     u_queue_connect := None |}.

Definition retry (jobId : Z) (tu : Z) (s : Store) : result Store :=
  rethrow "Error retrying job" (job_update jobId retry_data tu s).

(** [moveToCancelled(reason = 'Job cancelled by user')] *)
Definition moveToCancelled (reason : option string) (now tu : Z) (j : t)
    (s : Store) : t * result Store :=
  let reason := default "Job cancelled by user" reason in
  if negb (truthy_number (id j)) then (j, Throw JobIdRequired)
  else
    match select_job_for_update (Unquoted "job") (nullish (id j) 0) s with
    | Throw e => (j, Throw (Wrapped "Error moving job to cancelled" e))
    | Ok _ =>
        let j := set_status CANCELLED j in
        let j := set_failedReason (val reason) j in
        let j := set_finishedOn (val now) j in
        let j := set_lockToken null j in
        let (j, r) := save tu j s in
        (j, rethrow "Error moving job to cancelled" r)
    end.

(** [static cancelJob(jobId, reason = 'Job cancelled by user')] *)
Definition cancel_data (reason : string) (now : Z) : JobUpdateInput :=
  {| u_custom_id := undefined; u_name := None; u_command := None;
     u_args := undefined; u_working_dir := undefined; u_timeout := undefined;
     u_status := Some CANCELLED; u_priority := None; u_std_out := undefined;
     u_std_err := undefined; u_exit_code := undefined;
     u_max_attempts := None; u_attempts_made := None;
     u_processed_on := undefined; u_finished_on := val now;
     u_failed_reason := val reason; u_stack_trace := undefined;
     u_lock_token := null; u_keep_logs := undefined;
     u_queue_connect := None |}.

(** The body of [cancelJob], as a function of the relation that its lock
    query names. *)
Definition cancelJob_on (rel : ident) (jobId : Z) (reason : option string)
    (now tu : Z) (s : Store) : result Store :=
  let reason := default "Job cancelled by user" reason in
  rethrow "Error cancelling job"
    (jobLockResult ← select_job_for_update rel jobId s;
     if (Z.of_nat (length jobLockResult) =? 0) then Throw (JobNotFound jobId)
     else
       match find_job jobId s with
       | None => Throw (JobNotFound jobId)
       | Some job =>
           if bool_decide (Row.status job ≠ PENDING)
           then Throw (NotCancellable jobId (Row.status job))
           else job_update jobId (cancel_data reason now) tu s
       end).

(** The lock query of [cancelJob] reads [FROM "Job"]. *)
Definition cancelJob : Z → option string → Z → Z → Store → result Store :=
  cancelJob_on (Quoted "Job").

(** *** Logs *)

Definition logs_of (i : Z) (l : list LogRow.t) : list LogRow.t :=
  filter (fun r => LogRow.job_id r = i) l.

(** [ORDER BY sequence DESC] *)
Definition seq_desc (a b : LogRow.t) : Prop :=
  LogRow.sequence b ≤ LogRow.sequence a.

Global Instance seq_desc_dec : RelDecision seq_desc.
Proof. intros a b; unfold seq_desc; apply _. Defined.

Definition by_sequence_desc (l : list LogRow.t) : list LogRow.t :=
  merge_sort seq_desc l.

(** [tx.jobLog.create({ data: { job_id, message, sequence } })]; the
    foreign key to [job] and [@@unique([job_id, sequence])] are checked. *)
Definition jobLog_create (r : LogRow.t) (s : Store) : result Store :=
  if negb (existsb (has_id (LogRow.job_id r)) (jobs s)) then
    Throw ForeignKeyViolation
  else if existsb (fun x => (LogRow.job_id x =? LogRow.job_id r)
                            && (LogRow.sequence x =? LogRow.sequence r))
            (job_logs s) then
    Throw UniqueViolation
  else Ok (with_job_logs s (job_logs s ++ [r])).

(** [db.jobLog.findMany({ where: { job_id }, orderBy: { sequence: 'desc' },
    skip })] *)
Definition jobLog_findMany_skip (i : Z) (skip : Z) (s : Store)
    : result (list LogRow.t) :=
  if skip <? 0 then Throw NegativeSkip
  else Ok (drop (Z.to_nat skip) (by_sequence_desc (logs_of i (job_logs s)))).

(** [db.jobLog.deleteMany({ where: { job_id, sequence: { in: seqs } } })] *)
Definition jobLog_deleteMany (i : Z) (seqs : list Z) (s : Store) : Store :=
  with_job_logs s
    (filter (fun r => ¬ (LogRow.job_id r = i ∧ LogRow.sequence r ∈ seqs))
       (job_logs s)).

(** [cleanOldLogs(transaction)] *)
Definition cleanOldLogs (j : t) (s : Store) : result Store :=
  if (negb (truthy_number (id j)) || (keepLogs j =? 0))%bool then Ok s
  else
    rethrow "Error cleaning old logs"
      (logs ← jobLog_findMany_skip (nullish (id j) 0) (keepLogs j) s;
       if (0 <? Z.of_nat (length logs)) then
         Ok (jobLog_deleteMany (nullish (id j) 0) (LogRow.sequence <$> logs) s)
       else Ok s).

(** The [sequence] that [addLog] gives to the row it inserts. *)
Definition next_sequence (i : Z) (s : Store) : Z :=
  match take 1 (by_sequence_desc (logs_of i (job_logs s))) with
  | lastLog :: _ => LogRow.sequence lastLog + 1
  | [] => 1
  end.

(** [addLog(message)]; [now] is the [created_at] of the new row. *)
Definition addLog (message : string) (now : Z) (j : t) (s : Store)
    : result Store :=
  if negb (truthy_number (id j)) then Ok s
  else
    let i := nullish (id j) 0 in
    rethrow "Error adding log to job"
      (_ ← from_relation (Quoted "job");
       _ ← from_relation (Quoted "job_log");
       let sequence := next_sequence i s in
       s ← jobLog_create
             {| LogRow.job_id := i; LogRow.message := message;
                LogRow.sequence := sequence; LogRow.created_at := now |} s;
       cleanOldLogs j s).

(** *** Creation and queries *)


(** [getExecutionContext()] *)
Record JobExecutionContext : Type := {
  c_command : string;
  c_args : js (list string);
  c_workingDir : js string;
  c_timeout : js Z
}.

Definition getExecutionContext (j : t) : JobExecutionContext :=
  {| c_command := command j; c_args := args j;
     c_workingDir := workingDir j; c_timeout := timeout j |}.

(** [skip] and [take] of [findMany] on rows that are already ordered: a
    negative [skip] is refused; a negative [take] counts from the end of
    the list. *)
Definition window {A} (skip : Z) (limit : option Z) (l : list A)
    : result (list A) :=
  if skip <? 0 then Throw NegativeSkip
  else
    match limit with
    | None => Ok (drop (Z.to_nat skip) l)
    | Some n =>
        if 0 <=? n then Ok (take (Z.to_nat n) (drop (Z.to_nat skip) l))
        else Ok (reverse (take (Z.to_nat (- n))
                            (drop (Z.to_nat skip) (reverse l))))
    end.

(** [ORDER BY sequence ASC] *)
Definition seq_asc (a b : LogRow.t) : Prop :=
  LogRow.sequence a ≤ LogRow.sequence b.

Global Instance seq_asc_dec : RelDecision seq_asc.
Proof. intros a b; unfold seq_asc; apply _. Defined.

(** The [select] of [getLogs]. *)
Record LogEntry : Type := {
  l_message : string;
  l_sequence : Z;
  l_created_at : Z
}.

Definition log_entry (r : LogRow.t) : LogEntry :=
  {| l_message := LogRow.message r; l_sequence := LogRow.sequence r;
     l_created_at := LogRow.created_at r |}.

(** [getLogs(limit)] *)
Definition getLogs (limit : option Z) (j : t) (s : Store)
    : result (list LogEntry) :=
  if negb (truthy_number (id j)) then Ok []
  else
    rethrow "Error getting logs"
      (match window 0 limit
               (merge_sort seq_asc (logs_of (nullish (id j) 0) (job_logs s)))
       with
       | Ok logs => Ok (log_entry <$> logs)
       | Throw e => Throw e
       end).

(** [orderBy: [{ priority: 'asc' }, { created_at: 'desc' }, { id: 'desc' }]] *)
Definition list_le (a b : Row.t) : Prop :=
  Row.priority a < Row.priority b
  ∨ (Row.priority a = Row.priority b
     ∧ (Row.created_at b < Row.created_at a
        ∨ (Row.created_at a = Row.created_at b ∧ Row.id b ≤ Row.id a))).

Global Instance list_le_dec : RelDecision list_le.
Proof. intros a b; unfold list_le; apply _. Defined.

(** [whereClause]: the queue and, when a status is given, the status. *)
Definition in_queue (queueId : Z) (status : option JobStatus) (r : Row.t)
    : Prop :=
  Row.queue_id r = queueId
  ∧ match status with
    | Some st => Row.status r = st
    | None => True
    end.

Global Instance in_queue_dec queueId status r :
  Decision (in_queue queueId status r).
Proof. unfold in_queue; destruct status; apply _. Defined.

(** The [select] of [listByQueue]. *)
Record ListedJob : Type := {
  j_id : Z;
  j_name : string;
  j_custom_id : option string;
  j_command : string;
  j_status : JobStatus;
  j_priority : Z;
  j_attempts_made : Z;
  j_max_attempts : Z;
  j_created_at : Z;
  j_processed_on : option Z;
  j_finished_on : option Z;
  j_exit_code : option Z
}.

Definition listed (r : Row.t) : ListedJob :=
  {| j_id := Row.id r; j_name := Row.name r;
     j_custom_id := Row.custom_id r; j_command := Row.command r;
     j_status := Row.status r; j_priority := Row.priority r;
     j_attempts_made := Row.attempts_made r;
     j_max_attempts := Row.max_attempts r;
     j_created_at := Row.created_at r;
     j_processed_on := Row.processed_on r;
     j_finished_on := Row.finished_on r;
     j_exit_code := Row.exit_code r |}.

(** [static listByQueue(queueId, status, page = 1, pageSize = 20)] *)
Definition listByQueue (queueId : Z) (status : option JobStatus)
    (page pageSize : option Z) (s : Store) : result (list ListedJob) :=
  let page := default 1 page in
  let pageSize := default 20 pageSize in
  let skip := (page - 1) * pageSize in
  rethrow "Error listing jobs"
    (match window skip (Some pageSize)
             (merge_sort list_le (filter (in_queue queueId status) (jobs s)))
     with
     | Ok rows => Ok (listed <$> rows)
     | Throw e => Throw e
     end).

(** [static countByQueue(queueId, status)] *)
Definition countByQueue (queueId : Z) (status : option JobStatus) (s : Store)
    : Z :=
  Z.of_nat (length (filter (in_queue queueId status) (jobs s))).

End Job.

(** ** The remote executor *)

(** [shellEscape] of the package [shell-escape], which the executor imports:
    an argument with a character outside [A-Za-z0-9_/:=-] is wrapped in
    single quotes, each quote of it written ['\'']; the arguments are
    joined by a space. *)
Definition safe_char (c : ascii) : bool :=
  let n := nat_of_ascii c in
  ((Nat.leb 65 n && Nat.leb n 90) || (Nat.leb 97 n && Nat.leb n 122)
   || (Nat.leb 48 n && Nat.leb n 57)
   || Nat.eqb n 95 || Nat.eqb n 47 || Nat.eqb n 58 || Nat.eqb n 61
   || Nat.eqb n 45)%bool.

Fixpoint needs_quoting (s : string) : bool :=
  match s with
  | EmptyString => false
  | String c r => (negb (safe_char c) || needs_quoting r)%bool
  end.

(** [s.replace(/'/g, "'\\''")] *)
Fixpoint escape_quotes (s : string) : string :=
  match s with
  | EmptyString => EmptyString
  | String c r =>
      if Ascii.eqb c "'" then "'\''" +:+ escape_quotes r
      else String c (escape_quotes r)
  end.

(** [s.replace(/^(?:'')+/g, '')] *)
Fixpoint strip_leading_pairs (s : string) : string :=
  match s with
  | String "'" (String "'" r) => strip_leading_pairs r
  | _ => s
  end.

(** [s.replace(/\\'''/g, "\\'")] *)
Fixpoint collapse_quotes (s : string) : string :=
  match s with
  | String "\" (String "'" (String "'" (String "'" r))) =>
      String "\" (String "'" (collapse_quotes r))
  | String c r => String c (collapse_quotes r)
  | EmptyString => EmptyString
  end.

Definition escape_arg (s : string) : string :=
  if needs_quoting s then
    collapse_quotes (strip_leading_pairs ("'" +:+ escape_quotes s +:+ "'"))
  else s.

(** [a.join(sep)] *)
Fixpoint join (sep : string) (l : list string) : string :=
  match l with
  | [] => ""
  | [x] => x
  | x :: r => x +:+ sep +:+ join sep r
  end.

Definition shellEscape (a : list string) : string :=
  join " " (escape_arg <$> a).

Module RemoteExecutor.

(** [RemoteExecutionConfig], without the connection settings.  [env] is
    the list [Object.entries] gives for the object. *)
Record RemoteExecutionConfig : Type := {
  workingDir : js string;
  env : js (list (string * string))
}.

Record ExecutionResult : Type := {
  exitCode : Z;
  stdout : string;
  stderr : string;
  duration : Z
}.

(** What [ssh.execCommand] does for one command: the chunks it hands to
    the callbacks, each with the time at which it arrives, then the
    response it resolves with, or the error it rejects with. *)
Inductive chunk : Type :=
  | onStdout (text : string) (at_time : Z)
  | onStderr (text : string) (at_time : Z).

Record SSHExecCommandResponse : Type := {
  code : js Z;
  r_stdout : string;
  r_stderr : string
}.

Record SshRun : Type := {
  chunks : list chunk;
  settled : result SSHExecCommandResponse
}.

(** The remote host: the run of a command line in a directory. *)
Definition Ssh : Type := string → string → SshRun.

Definition dquote : string := String (ascii_of_nat 34) EmptyString.

(** [buildCommand(job)] *)
Definition buildCommand (job : Job.t) : string :=
  match Job.args job with
  | val (a :: r) => shellEscape (Job.command job :: a :: r)
  | _ => Job.command job
  end.

Definition envString (config : RemoteExecutionConfig) : string :=
  match env config with
  | val entries =>
      join " " ((fun kv => "export " +:+ fst kv +:+ "=" +:+ dquote
                           +:+ snd kv +:+ dquote +:+ ";") <$> entries)
  | _ => ""
  end.

Definition commandWithEnv (config : RemoteExecutionConfig) (job : Job.t)
    : string :=
  if negb (String.eqb (envString config) "")
  then envString config +:+ " " +:+ buildCommand job
  else buildCommand job.

(** [job.workingDir || this.config.workingDir || '/tmp'] *)
Definition cwd (config : RemoteExecutionConfig) (job : Job.t) : string :=
  nullish (or_string (or_string (Job.workingDir job) (workingDir config))
             (val "/tmp")) "/tmp".

(** The callbacks: [job.addLog(...).catch(console.error)].  The appends
    are applied in the order in which the chunks arrive. *)
Definition on_chunk (job : Job.t) (s : Store) (c : chunk) : Store :=
  let r := match c with
           | onStdout m t => Job.addLog ("[stdout] " +:+ m) t job s
           | onStderr m t => Job.addLog ("[stderr] " +:+ m) t job s
           end in
  match r with
  | Ok s' => s'
  | Throw _ => s
  end.

(** [executeJob(job)]; [startTime] and [endTime] are the two readings of
    [Date.now()]. *)
Definition executeJob (ssh : Ssh) (config : RemoteExecutionConfig)
    (startTime endTime : Z) (job : Job.t) (s : Store)
    : result ExecutionResult * Store :=
  let run := ssh (commandWithEnv config job) (cwd config job) in
  let s := foldl (on_chunk job) s (chunks run) in
  (rethrow "Error executing job"
     (result ← settled run;
      Ok {| exitCode := nullish (code result) 0;
            stdout := r_stdout result;
            stderr := r_stderr result;
            duration := endTime - startTime |}), s).

(** [executeJobWithTimeout(job)]; [timer_first] tells whether the timer of
    the race fires before the command settles. *)
Definition executeJobWithTimeout (ssh : Ssh) (config : RemoteExecutionConfig)
    (timer_first : bool) (startTime endTime : Z) (job : Job.t) (s : Store)
    : result ExecutionResult * Store :=
  if truthy_number (Job.timeout job) then
    let (r, s) := executeJob ssh config startTime endTime job s in
    if timer_first then (Throw JobTimedOut, s) else (r, s)
  else executeJob ssh config startTime endTime job s.

End RemoteExecutor.

(** ** Class [Queue] *)

(** The operations of a queue object that is ready: [waitUntilReady] has
    resolved its [_queueId], which is their first argument. *)
Module Queue.

Record QueueStats : Type := {
  totalJobs : Z;
  completedJobs : Z;
  failedJobs : Z;
  runningJobs : Z;
  stalledJobs : Z;
  pendingJobs : Z
}.

(** [prisma.job.groupBy({ by: ['status'], where: { queue_id }, _count: true })]:
    one item for each status that occurs in the queue. *)
Definition count_status (queueId : Z) (st : JobStatus) (s : Store) : Z :=
  Z.of_nat (length (filter (fun r => Row.queue_id r = queueId ∧ Row.status r = st)
                      (jobs s))).

Definition groupBy_status (queueId : Z) (s : Store) : list (JobStatus * Z) :=
  filter (fun item => item.2 ≠ 0)
    ((fun st => (st, count_status queueId st s))
       <$> [PENDING; RUNNING; COMPLETED; FAILED; STALLED; CANCELLED]).

(** The body of the loop over [counts]. *)
Definition add_item (stats : QueueStats) (item : JobStatus * Z) : QueueStats :=
  let total := totalJobs stats + item.2 in
  match item.1 with
  | COMPLETED =>
      {| totalJobs := total; completedJobs := item.2;
         failedJobs := failedJobs stats; runningJobs := runningJobs stats;
         stalledJobs := stalledJobs stats; pendingJobs := pendingJobs stats |}
  | FAILED =>
      {| totalJobs := total; completedJobs := completedJobs stats;
         failedJobs := item.2; runningJobs := runningJobs stats;
         stalledJobs := stalledJobs stats; pendingJobs := pendingJobs stats |}
  | RUNNING =>
      {| totalJobs := total; completedJobs := completedJobs stats;
         failedJobs := failedJobs stats; runningJobs := item.2;
         stalledJobs := stalledJobs stats; pendingJobs := pendingJobs stats |}
  | STALLED =>
      {| totalJobs := total; completedJobs := completedJobs stats;
         failedJobs := failedJobs stats; runningJobs := runningJobs stats;
         stalledJobs := item.2; pendingJobs := pendingJobs stats |}
  | PENDING =>
      {| totalJobs := total; completedJobs := completedJobs stats;
         failedJobs := failedJobs stats; runningJobs := runningJobs stats;
         stalledJobs := stalledJobs stats; pendingJobs := item.2 |}
  | CANCELLED =>
      {| totalJobs := total; completedJobs := completedJobs stats;
         failedJobs := failedJobs stats; runningJobs := runningJobs stats;
         stalledJobs := stalledJobs stats; pendingJobs := pendingJobs stats |}
  end.

(** The loop over [counts], from the initial [stats]. *)
Definition tally (counts : list (JobStatus * Z)) : QueueStats :=
  foldl add_item
    {| totalJobs := 0; completedJobs := 0; failedJobs := 0;
       runningJobs := 0; stalledJobs := 0; pendingJobs := 0 |}
    counts.

(** [getStats()] *)
Definition getStats (queueId : Z) (s : Store) : QueueStats :=
  tally (groupBy_status queueId s).

End Queue.

(** ** Class [Worker] *)

(** [new Error(msg)]; the frames of the stack trace are not modelled. *)
Definition new_Error (msg : string) : JsError :=
  {| message := val msg;
     stack := val ("Error: " +:+ msg);
     toString := "Error: " +:+ msg |}.

(** [`${error}`] for the errors the engine and its libraries raise. *)
Fixpoint describe (e : error) : string :=
  match e with
  | JobIdRequired => "Error: Job ID is required"
  | RecordNotFound => "PrismaClientKnownRequestError: record not found"
  | ConnectNotFound => "PrismaClientKnownRequestError: no record to connect"
  | UndefinedRelation rel => "error: relation " +:+ rel +:+ " does not exist"
  | ForeignKeyViolation => "PrismaClientKnownRequestError: foreign key"
  | UniqueViolation => "PrismaClientKnownRequestError: unique constraint"
  | NegativeSkip => "PrismaClientValidationError: skip"
  | NegativeLimit => "error: LIMIT must not be negative"
  | JobNotFound i => "Error: Job " +:+ pretty i +:+ " not found"
  | NotCancellable i _ =>
      "Error: Job " +:+ pretty i
      +:+ " cannot be cancelled. Only pending jobs can be cancelled."
  | JobTimedOut => "Error: Job timed out"
  | Raised err => toString err
  | Wrapped context cause => "Error: " +:+ context +:+ ": " +:+ describe cause
  end.

(** The [Error] object a [catch] clause holds for a thrown error. *)
Definition caught (e : error) : JsError :=
  match e with
  | Raised err => err
  | _ => {| message := val (describe e); stack := val (describe e);
            toString := describe e |}
  end.

Module Worker.

Record t : Type := {
  concurrency : Z;
  queue_name : string;
  activeJobs : gset Z;
  remoteConfig : RemoteExecutor.RemoteExecutionConfig
}.

(** [ORDER BY priority ASC, created_at ASC, id ASC] *)
Definition lease_le (a b : Row.t) : Prop :=
  Row.priority a < Row.priority b
  ∨ (Row.priority a = Row.priority b
     ∧ (Row.created_at a < Row.created_at b
        ∨ (Row.created_at a = Row.created_at b ∧ Row.id a ≤ Row.id b))).

Global Instance lease_le_dec : RelDecision lease_le.
Proof. intros a b; unfold lease_le; apply _. Defined.

(** The [WHERE] clause of [next_job]; a queue name that is not in table
    [queue] makes the comparison with [queue_id] unknown. *)
Definition eligible (q : option Z) (r : Row.t) : Prop :=
  Row.status r = PENDING ∧ Some (Row.queue_id r) = q ∧ Row.lock_token r = None.

Global Instance eligible_dec q r : Decision (eligible q r).
Proof. unfold eligible; apply _. Defined.

(** The ids of the common table expression [next_job]. *)
Definition next_job (q : option Z) (limit : nat) (l : list Row.t) : list Z :=
  Row.id <$> take limit (merge_sort lease_le (filter (eligible q) l)).

(** The [SET] clause. *)
Definition leased (lockToken : string) (now : Z) (r : Row.t) : Row.t :=
  {| Row.id := Row.id r;
     Row.custom_id := Row.custom_id r;
     Row.name := Row.name r;
     Row.command := Row.command r;
     Row.args := Row.args r;
     Row.working_dir := Row.working_dir r;
     Row.timeout := Row.timeout r;
     Row.std_out := Row.std_out r;
     Row.std_err := Row.std_err r;
     Row.exit_code := Row.exit_code r;
     Row.status := RUNNING;
     Row.priority := Row.priority r;
     Row.max_attempts := Row.max_attempts r;
     Row.attempts_made := Row.attempts_made r + 1;
     Row.created_at := Row.created_at r;
     Row.updated_at := Row.updated_at r;
     Row.processed_on := Some now;
     Row.finished_on := Row.finished_on r;
     Row.failed_reason := Row.failed_reason r;
     Row.stack_trace := Row.stack_trace r;
     Row.lock_token := Some lockToken;
     Row.keep_logs := Row.keep_logs r;
     Row.queue_id := Row.queue_id r |}.

(** The [Job] object built from a returned row. *)
Definition job_of_row (jobData : Row.t) : Job.t :=
  let job :=
    Job.new (Row.name jobData) (Row.command jobData) (Row.queue_id jobData)
      (of_column (Row.args jobData))
      {| Job.o_customId := of_column (Row.custom_id jobData);
         Job.o_priority := val (Row.priority jobData);
         Job.o_maxAttempts := val (Row.max_attempts jobData);
         Job.o_timeout := of_column (Row.timeout jobData);
         Job.o_workingDir := of_column (Row.working_dir jobData);
         Job.o_keepLogs := of_column (Row.keep_logs jobData) |} in
  let job := Job.set_id (val (Row.id jobData)) job in
  let job := Job.set_status (Row.status jobData) job in
  let job := Job.set_attemptsMade (Row.attempts_made jobData) job in
  let job := Job.set_createdAt (val (Row.created_at jobData)) job in
  let job := Job.set_updatedAt (val (Row.updated_at jobData)) job in
  let job := Job.set_processedOn (of_column (Row.processed_on jobData)) job in
  let job := Job.set_finishedOn (of_column (Row.finished_on jobData)) job in
  let job := Job.set_failedReason (of_column (Row.failed_reason jobData)) job in
  let job := Job.set_stackTrace (of_column (Row.stack_trace jobData)) job in
  let job := Job.set_lockToken (of_column (Row.lock_token jobData)) job in
  let job := Job.set_stdOut (of_column (Row.std_out jobData)) job in
  let job := Job.set_stdErr (of_column (Row.std_err jobData)) job in
  Job.set_exitCode (of_column (Row.exit_code jobData)) job.

(** The lease statement on the table: the table after the [UPDATE] and
    the rows of [RETURNING *], in the order in which the [UPDATE] visits
    the rows of [job] (the statement orders [next_job], not its result). *)
Definition lease (q : option Z) (limit : nat) (lockToken : string) (now : Z)
    (l : list Row.t) : list Row.t * list Row.t :=
  let ids := next_job q limit l in
  let l' := update_rows (fun r => bool_decide (Row.id r ∈ ids))
              (leased lockToken now) l in
  (l', filter (fun r => Row.id r ∈ ids) l').

(** [fetchAndLockNextJobs(slotsToFill)]; [lockToken] is the token the
    worker has drawn, [now] the time of the statement. *)
Definition fetchAndLockNextJobs (slotsToFill : Z) (lockToken : string)
    (now : Z) (w : t) (s : Store) : result (list Job.t * Store) :=
  _ ← from_relation (Unquoted "job");
  _ ← from_relation (Unquoted "queue");
  if slotsToFill <? 0 then Throw NegativeLimit
  else
    let '(l', result) :=
      lease (queue_id_of_name (queue_name w) s) (Z.to_nat slotsToFill)
        lockToken now (jobs s) in
    Ok (job_of_row <$> result, with_jobs s l').

Definition with_active (w : t) (a : gset Z) : t :=
  {| concurrency := concurrency w; queue_name := queue_name w;
     activeJobs := a; remoteConfig := remoteConfig w |}.

(** [fillConcurrency()], up to the dispatch of the jobs it returns. *)
Definition fillConcurrency (lockToken : string) (now : Z) (w : t) (s : Store)
    : result (t * list Job.t * Store) :=
  let slotsToFill := concurrency w - Z.of_nat (size (activeJobs w)) in
  if slotsToFill <=? 0 then Ok (w, [], s)
  else
    '(jobs, s') ← fetchAndLockNextJobs slotsToFill lockToken now w s;
    Ok (with_active w
          (activeJobs w ∪ list_to_set ((fun j => nullish (Job.id j) 0) <$> jobs)),
        jobs, s').

(** [executeJob(job)] of the worker. *)
Definition executeJob (ssh : RemoteExecutor.Ssh) (timer_first : bool)
    (startTime endTime : Z) (w : t) (job : Job.t) (s : Store)
    : result (Z * string * string) * Store :=
  let (r, s) := RemoteExecutor.executeJobWithTimeout ssh (remoteConfig w)
                  timer_first startTime endTime job s in
  (rethrow "Remote execution failed"
     ((fun x => (RemoteExecutor.exitCode x, RemoteExecutor.stdout x,
                 RemoteExecutor.stderr x)) <$> r), s).

Inductive event : Type :=
  | jobStarted (job : Job.t)
  | jobCompleted (job : Job.t)
  | jobFailed (job : Job.t) (error : JsError).

(** The clock readings of one [processJob]. *)
Record readings : Type := {
  startTime : Z;
  endTime : Z;
  date1 : Z;
  date2 : Z;
  saved : Z;
  catch_date1 : Z;
  catch_date2 : Z;
  catch_saved : Z
}.

(** The [catch] clause of [processJob]. *)
Definition processJob_catch (c : readings) (ev : list event) (e : error)
    (job : Job.t) (s : Store) : Job.t * Store * list event * option error :=
  let error := caught e in
  let (job, r) := Job.moveToFailed error undefined undefined undefined
                    (catch_date1 c) (catch_date2 c) (catch_saved c) job s in
  match r with
  | Ok s => (job, s, ev ++ [jobFailed job error], None)
  | Throw e' => (job, s, ev, Some e')
  end.

(** [processJob(job)]: the job object, the store and the events emitted,
    and the error the promise rejects with, if any. *)
Definition processJob (ssh : RemoteExecutor.Ssh) (timer_first : bool)
    (c : readings) (w : t) (job : Job.t) (s : Store)
    : Job.t * Store * list event * option error :=
  let ev := [jobStarted job] in
  let (r, s) := executeJob ssh timer_first (startTime c) (endTime c) w job s in
  match r with
  | Throw e => processJob_catch c ev e job s
  | Ok (exitCode, stdout, stderr) =>
      if negb (exitCode =? 0) then
        let error := new_Error ("Job failed with exit code " +:+ pretty exitCode) in
        let (job, r) := Job.moveToFailed error (val exitCode) (val stdout)
                          (val stderr) (date1 c) (date2 c) (saved c) job s in
        match r with
        | Ok s => (job, s, ev ++ [jobFailed job error], None)
        | Throw e => processJob_catch c ev e job s
        end
      else
        let (job, r) := Job.moveToCompleted (val exitCode) (val stdout)
                          (val stderr) (date1 c) (saved c) job s in
        match r with
        | Ok s => (job, s, ev ++ [jobCompleted job], None)
        | Throw e => processJob_catch c ev e job s
        end
  end.

End Worker.

(** ** Runs of the engine *)

(** One lease statement: the worker that issues it, its [slotsToFill], the
    token it has drawn and the time of the statement. *)
Record lease_request : Type := {
  rq_worker : Worker.t;
  rq_slots : Z;
  rq_token : string;
  rq_now : Z
}.

(** Lease statements of any workers, in the order in which the database
    runs them; a statement that fails returns no job. *)
Fixpoint run_leases (reqs : list lease_request) (s : Store)
    : list (list Job.t) * Store :=
  match reqs with
  | [] => ([], s)
  | rq :: rest =>
      match Worker.fetchAndLockNextJobs (rq_slots rq) (rq_token rq) (rq_now rq)
              (rq_worker rq) s with
      | Ok (batch, s') =>
          let (batches, s'') := run_leases rest s' in (batch :: batches, s'')
      | Throw _ =>
          let (batches, s'') := run_leases rest s in ([] :: batches, s'')
      end
  end.

(** The ids of the jobs of a batch. *)
Definition batch_ids (batch : list Job.t) : list Z :=
  (fun j => nullish (Job.id j) 0) <$> batch.

(** A lease batch, as the claim orders it. *)
Definition batch_le (a b : Job.t) : Prop :=
  Job.priority a < Job.priority b
  ∨ (Job.priority a = Job.priority b
     ∧ (nullish (Job.createdAt a) 0 < nullish (Job.createdAt b) 0
        ∨ (nullish (Job.createdAt a) 0 = nullish (Job.createdAt b) 0
           ∧ nullish (Job.id a) 0 ≤ nullish (Job.id b) 0))).

(** Calls of [addLog] on one job object, one after another; each call is
    the message and the time of the append.  A call that throws leaves the
    store as it was. *)
Definition addLog_call (j : Job.t) (s : Store) (c : string * Z) : Store :=
  match Job.addLog c.1 c.2 j s with
  | Ok s' => s'
  | Throw _ => s
  end.

Definition addLogs (calls : list (string * Z)) (j : Job.t) (s : Store) : Store :=
  foldl (addLog_call j) s calls.

(** The sequence numbers given to the rows that the calls insert, in the
    order of the calls. *)
Fixpoint assigned_sequences (calls : list (string * Z)) (j : Job.t) (s : Store)
    : list Z :=
  match calls with
  | [] => []
  | c :: rest =>
      match Job.addLog c.1 c.2 j s with
      | Ok s' =>
          Job.next_sequence (nullish (Job.id j) 0) s
            :: assigned_sequences rest j s'
      | Throw _ => assigned_sequences rest j s
      end
  end.

(** The rows of job [i] that the calls insert when each is given the next
    number from 1 on. *)
Definition appended (i : Z) (calls : list (string * Z)) : list LogRow.t :=
  imap (fun k c => {| LogRow.job_id := i; LogRow.message := c.1;
                      LogRow.sequence := Z.of_nat k + 1;
                      LogRow.created_at := c.2 |}) calls.

(** The rows of job [i] are numbered consecutively, up to [n]. *)
Definition numbered_to (i n : Z) (s : Store) : Prop :=
  let l := Job.logs_of i (job_logs s) in
  LogRow.sequence <$> l
    = seqZ (n - Z.of_nat (length l) + 1) (Z.of_nat (length l))
  ∧ (l = [] → n = 0).

(** The number of rows of a job kept after [n] appends, with
    [keepLogs = K]; [K = 0] switches the trimming off. *)
Definition kept (K : Z) (n : nat) : nat :=
  if K =? 0 then n else Nat.min n (Z.to_nat K).

(** ** The command line, as the specification words it *)




(** ** Effects on a row, written out *)

(** A job object is stored in [s] under the id [i]. *)
Definition stored (j : Job.t) (i : Z) (s : Store) : Prop :=
  Job.id j = val i ∧ i ≠ 0 ∧ is_Some (find_job i s)
  ∧ queue_exists (Job.queueId j) s = true.

Global Instance stored_dec j i s : Decision (stored j i s).
Proof. unfold stored; apply _. Defined.

(** The effect on a row that C10 states for [Job.retry]. *)
Definition retry_as_claimed (r : Row.t) : Row.t :=
  {| Row.id := Row.id r;
     Row.custom_id := Row.custom_id r;
     Row.name := Row.name r;
     Row.command := Row.command r;
     Row.args := Row.args r;
     Row.working_dir := Row.working_dir r;
     Row.timeout := Row.timeout r;
     Row.std_out := Row.std_out r;
     Row.std_err := Row.std_err r;
     Row.exit_code := None;
     Row.status := PENDING;
     Row.priority := Row.priority r;
     Row.max_attempts := Row.max_attempts r;
     Row.attempts_made := Row.attempts_made r;
     Row.created_at := Row.created_at r;
     Row.updated_at := Row.updated_at r;
     Row.processed_on := Row.processed_on r;
     Row.finished_on := None;
     Row.failed_reason := None;
     Row.stack_trace := None;
     Row.lock_token := None;
     Row.keep_logs := Row.keep_logs r;
     Row.queue_id := Row.queue_id r |}.

(** The same, with [updated_at] set to the time of the update. *)
Definition retry_effect (tu : Z) (r : Row.t) : Row.t :=
  {| Row.id := Row.id r;
     Row.custom_id := Row.custom_id r;
     Row.name := Row.name r;
     Row.command := Row.command r;
     Row.args := Row.args r;
     Row.working_dir := Row.working_dir r;
     Row.timeout := Row.timeout r;
     Row.std_out := Row.std_out r;
     Row.std_err := Row.std_err r;
     Row.exit_code := None;
     Row.status := PENDING;
     Row.priority := Row.priority r;
     Row.max_attempts := Row.max_attempts r;
     Row.attempts_made := Row.attempts_made r;
     Row.created_at := Row.created_at r;
     Row.updated_at := tu;
     Row.processed_on := Row.processed_on r;
     Row.finished_on := None;
     Row.failed_reason := None;
     Row.stack_trace := None;
     Row.lock_token := None;
     Row.keep_logs := Row.keep_logs r;
     Row.queue_id := Row.queue_id r |}.

(** ** Further effects and invariants, written out *)



(** The exit code that [moveToCompleted] stores: 0 when none is passed. *)
Definition completed_exit_code (exitCode : js Z) : option Z :=
  match exitCode with
  | undefined => Some 0
  | null => None
  | val c => Some c
  end.

(** The jobs on pages 1 to [n] of a listing, read one page after another
    from a store that does not change; a page that is refused gives
    nothing. *)
Fixpoint pages (queueId : Z) (status : option JobStatus) (pageSize : option Z)
    (n : nat) (s : Store) : list Job.ListedJob :=
  match n with
  | O => []
  | S m =>
      pages queueId status pageSize m s
      ++ match Job.listByQueue queueId status (Some (Z.of_nat (S m))) pageSize s with
         | Ok l => l
         | Throw _ => []
         end
  end.

(** ** Example data *)

Definition ex_row (i p c : Z) (st : JobStatus) : Row.t :=
  Row.mk i None "job" "echo" (Some ["a"]) None None None None None st p 2 0 c c
    None None None None None (Some 3) 1.

Definition ex_store : Store :=
  {| jobs := [ex_row 1 5 10 PENDING; ex_row 2 1 20 PENDING;
              ex_row 3 1 5 RUNNING; ex_row 4 0 7 PENDING;
              ex_row 5 0 1 COMPLETED];
     job_logs := [];
     queues := [QueueRow.mk 1 "q"];
     job_id_seq := 6;
     notifications := [] |}.

Definition ex_worker : Worker.t :=
  {| Worker.concurrency := 2;
     Worker.queue_name := "q";
     Worker.activeJobs := ∅;
     Worker.remoteConfig :=
       {| RemoteExecutor.workingDir := undefined;
          RemoteExecutor.env := undefined |} |}.

(** Job 1 of [ex_store], as a lease returns it ([keepLogs = 3]). *)
Definition ex_job : Job.t := Worker.job_of_row (ex_row 1 5 10 PENDING).

Definition ex_calls : list (string * Z) :=
  [("log 1", 101); ("log 2", 102); ("log 3", 103); ("log 4", 104);
   ("log 5", 105)].

(** Jobs 3 (RUNNING) and 5 (COMPLETED) of [ex_store], as objects. *)
Definition ex_running : Job.t := Worker.job_of_row (ex_row 3 1 5 RUNNING).
Definition ex_completed : Job.t := Worker.job_of_row (ex_row 5 0 1 COMPLETED).



(** A remote host on which every command ends without an exit code, after
    one chunk of output. *)
Definition ex_ssh : RemoteExecutor.Ssh := fun _ _ =>
  {| RemoteExecutor.chunks := [RemoteExecutor.onStdout "out" 150];
     RemoteExecutor.settled :=
       Ok {| RemoteExecutor.code := null;
             RemoteExecutor.r_stdout := "out";
             RemoteExecutor.r_stderr := "" |} |}.

Definition ex_readings : Worker.readings :=
  {| Worker.startTime := 140; Worker.endTime := 160;
     Worker.date1 := 161; Worker.date2 := 162; Worker.saved := 163;
     Worker.catch_date1 := 164; Worker.catch_date2 := 165;
     Worker.catch_saved := 166 |}.


(** A remote host on which every command ends with exit code 2, and one
    that rejects every command. *)
Definition ex_ssh_exit2 : RemoteExecutor.Ssh := fun _ _ =>
  {| RemoteExecutor.chunks := [RemoteExecutor.onStderr "no such file" 150];
     RemoteExecutor.settled :=
       Ok {| RemoteExecutor.code := val 2;
             RemoteExecutor.r_stdout := "";
             RemoteExecutor.r_stderr := "no such file" |} |}.


(** The batch and the store after a lease of two slots on [ex_store], and
    the job of the batch that mirrors row 2. *)
Definition ex_leased : list Job.t * Store :=
  match Worker.fetchAndLockNextJobs 2 "tok" 100 ex_worker ex_store with
  | Ok p => p
  | Throw _ => ([], ex_store)
  end.

Definition ex_leased_job : Job.t :=
  Worker.job_of_row (Worker.leased "tok" 100 (ex_row 2 1 20 PENDING)).

(** A job that has failed for good: two attempts made of two. *)
Definition ex_exhausted : Row.t :=
  {| Row.id := 7; Row.custom_id := None; Row.name := "job";
     Row.command := "ls /nowhere"; Row.args := None; Row.working_dir := None;
     Row.timeout := None; Row.std_out := Some "";
     Row.std_err := Some "no such file"; Row.exit_code := Some 2;
     Row.status := FAILED; Row.priority := 0; Row.max_attempts := 2;
     Row.attempts_made := 2; Row.created_at := 10; Row.updated_at := 90;
     Row.processed_on := Some 80; Row.finished_on := Some 90;
     Row.failed_reason := Some "Job failed with exit code 2";
     Row.stack_trace := None; Row.lock_token := None;
     Row.keep_logs := Some 3; Row.queue_id := 1 |}.

Definition ex_failed_store : Store := with_jobs ex_store [ex_exhausted].

(** * Properties *)

(** ** The lease *)

Section Lease.
Variables (q : option Z) (limit : nat) (lockToken : string) (now : Z).

Lemma leased_id r : Row.id (Worker.leased lockToken now r) = Row.id r.
Proof. reflexivity. Qed.

Lemma update_rows_ids p f (l : list Row.t) :
  (∀ r, Row.id (f r) = Row.id r) →
  Row.id <$> update_rows p f l = Row.id <$> l.
Proof.
  intros Hf. unfold update_rows. rewrite <- list_fmap_compose.
  apply list_fmap_ext. intros _ r _. simpl. destruct (p r); auto.
Qed.

Lemma lease_ids l : Row.id <$> (Worker.lease q limit lockToken now l).1 = Row.id <$> l.
Proof. apply update_rows_ids, leased_id. Qed.

Lemma next_job_eligible l i :
  i ∈ Worker.next_job q limit l → ∃ r, r ∈ l ∧ Row.id r = i ∧ Worker.eligible q r.
Proof.
  unfold Worker.next_job. intros H.
  apply list_elem_of_fmap in H as (r & -> & Hr).
  apply subseteq_take in Hr. rewrite merge_sort_Permutation in Hr.
  apply list_elem_of_filter in Hr as [He Hr]. eauto.
Qed.

Lemma same_id_same_row (l : list Row.t) r1 r2 :
  NoDup (Row.id <$> l) → r1 ∈ l → r2 ∈ l → Row.id r1 = Row.id r2 → r1 = r2.
Proof.
  intros Hnd H1 H2 Heq.
  apply list_elem_of_lookup in H1 as [i1 H1], H2 as [i2 H2].
  assert (i1 = i2) as ->.
  { eapply NoDup_lookup; [exact Hnd | |]; rewrite list_lookup_fmap.
    - rewrite H1. reflexivity.
    - rewrite H2. simpl. congruence. }
  congruence.
Qed.

Lemma lease_returning l r' :
  NoDup (Row.id <$> l) →
  r' ∈ (Worker.lease q limit lockToken now l).2 →
  ∃ r, r ∈ l ∧ Worker.eligible q r ∧ r' = Worker.leased lockToken now r.
Proof.
  intros Hnd H. unfold Worker.lease in H. simpl in H.
  apply list_elem_of_filter in H as [Hin H].
  unfold update_rows in H. apply list_elem_of_fmap in H as (r & -> & Hr).
  case_bool_decide as Hc.
  - destruct (next_job_eligible _ _ Hc) as (r0 & Hr0 & Hid & He).
    rewrite (same_id_same_row l r r0) by auto. eauto.
  - contradiction.
Qed.

Lemma lease_keeps_running l i :
  (∃ r, r ∈ l ∧ Row.id r = i ∧ Row.status r = RUNNING) →
  ∃ r, r ∈ (Worker.lease q limit lockToken now l).1 ∧ Row.id r = i
       ∧ Row.status r = RUNNING.
Proof.
  intros (r & Hr & Hi & Hs). unfold Worker.lease, update_rows. simpl.
  eexists. split; [apply list_elem_of_fmap; eexists; split; [reflexivity | exact Hr] |].
  simpl. case_bool_decide; simpl; auto.
Qed.

Lemma lease_returned_running l r' :
  r' ∈ (Worker.lease q limit lockToken now l).2 →
  ∃ r, r ∈ (Worker.lease q limit lockToken now l).1 ∧ Row.id r = Row.id r'
       ∧ Row.status r = RUNNING.
Proof.
  intros H. unfold Worker.lease in *. simpl in *.
  apply list_elem_of_filter in H as [Hin H]. exists r'. split; [done | split; [done |]].
  unfold update_rows in H. apply list_elem_of_fmap in H as (r & -> & Hr).
  case_bool_decide as Hc; [reflexivity | contradiction].
Qed.

Lemma lease_returning_NoDup l :
  NoDup (Row.id <$> l) →
  NoDup (Row.id <$> (Worker.lease q limit lockToken now l).2).
Proof.
  intros Hnd. pose proof (lease_ids l) as Hids. unfold Worker.lease in *. simpl in *.
  rewrite <- Hids in Hnd. revert Hnd.
  generalize (update_rows (λ r, bool_decide (Row.id r ∈ Worker.next_job q limit l))
       (Worker.leased lockToken now) l).
  intros l0. induction l0 as [|x l0 IH]; simpl; [constructor |].
  intros Hnd. apply NoDup_cons in Hnd as [Hx Hnd].
  rewrite filter_cons. case_decide.
  - simpl. apply NoDup_cons. split; [| auto].
    intros Hc. apply Hx. apply list_elem_of_fmap in Hc as (y & ? & Hy).
    apply list_elem_of_filter in Hy as [_ Hy]. apply list_elem_of_fmap. eauto.
  - auto.
Qed.
End Lease.

Lemma job_of_row_id r : Job.id (Worker.job_of_row r) = val (Row.id r).
Proof. reflexivity. Qed.

Lemma fetchAndLockNextJobs_lease slotsToFill lockToken now w s :
  0 ≤ slotsToFill →
  Worker.fetchAndLockNextJobs slotsToFill lockToken now w s =
    let p := Worker.lease (queue_id_of_name (Worker.queue_name w) s)
               (Z.to_nat slotsToFill) lockToken now (jobs s) in
    Ok (Worker.job_of_row <$> p.2, with_jobs s p.1).
Proof.
  intros H. unfold Worker.fetchAndLockNextJobs. simpl.
  destruct (Z.ltb_spec slotsToFill 0); [lia | reflexivity].
Qed.

Lemma fetchAndLockNextJobs_negative slotsToFill lockToken now w s :
  slotsToFill < 0 →
  Worker.fetchAndLockNextJobs slotsToFill lockToken now w s = Throw NegativeLimit.
Proof.
  intros H. unfold Worker.fetchAndLockNextJobs. simpl.
  destruct (Z.ltb_spec slotsToFill 0); [reflexivity | lia].
Qed.

Lemma batch_ids_rows (rows : list Row.t) :
  batch_ids (Worker.job_of_row <$> rows) = Row.id <$> rows.
Proof. unfold batch_ids. rewrite <- list_fmap_compose. reflexivity. Qed.

Lemma run_leases_fresh reqs : ∀ s seen,
  NoDup (Row.id <$> jobs s) →
  NoDup seen →
  (∀ i, i ∈ seen → ∃ r, r ∈ jobs s ∧ Row.id r = i ∧ Row.status r = RUNNING) →
  NoDup (seen ++ batch_ids (concat (run_leases reqs s).1)).
Proof.
  induction reqs as [|rq rest IH]; intros s seen Hnd Hseen Hrun; simpl.
  { rewrite app_nil_r. exact Hseen. }
  destruct (Z.lt_ge_cases (rq_slots rq) 0) as [Hneg | Hpos].
  - rewrite fetchAndLockNextJobs_negative by done.
    specialize (IH s seen Hnd Hseen Hrun).
    destruct (run_leases rest s) as [batches s'']. exact IH.
  - rewrite fetchAndLockNextJobs_lease by done. cbv zeta.
    pose proof (lease_ids (queue_id_of_name (Worker.queue_name (rq_worker rq)) s)
                  (Z.to_nat (rq_slots rq)) (rq_token rq) (rq_now rq) (jobs s)) as Hids.
    pose proof (lease_returning (queue_id_of_name (Worker.queue_name (rq_worker rq)) s)
                  (Z.to_nat (rq_slots rq)) (rq_token rq) (rq_now rq) (jobs s)) as Hret.
    pose proof (lease_keeps_running (queue_id_of_name (Worker.queue_name (rq_worker rq)) s)
                  (Z.to_nat (rq_slots rq)) (rq_token rq) (rq_now rq) (jobs s)) as Hkeep.
    pose proof (lease_returned_running (queue_id_of_name (Worker.queue_name (rq_worker rq)) s)
                  (Z.to_nat (rq_slots rq)) (rq_token rq) (rq_now rq) (jobs s)) as Hnew.
    pose proof (lease_returning_NoDup (queue_id_of_name (Worker.queue_name (rq_worker rq)) s)
                  (Z.to_nat (rq_slots rq)) (rq_token rq) (rq_now rq) (jobs s) Hnd) as Hndr.
    destruct (Worker.lease _ _ _ _ _) as [l' ret]. simpl in *.
    specialize (IH (with_jobs s l') (seen ++ (Row.id <$> ret))).
    destruct (run_leases rest (with_jobs s l')) as [batches s'']. simpl in *.
    replace (batch_ids ((Worker.job_of_row <$> ret) ++ concat batches))
      with ((Row.id <$> ret) ++ batch_ids (concat batches))
      by (unfold batch_ids at 2; rewrite fmap_app; f_equal; symmetry; apply batch_ids_rows).
    rewrite app_assoc. apply IH.
    + rewrite Hids. exact Hnd.
    + apply NoDup_app. split; [exact Hseen | split; [| exact Hndr]].
      intros i Hi Hi'. destruct (Hrun i Hi) as (rr & Hrr & Hid & Hst).
      apply list_elem_of_fmap in Hi' as (r' & -> & Hr').
      apply Hret in Hr' as (r & Hr & (Hp & _) & ->); [| exact Hnd].
      assert (rr = r) by (eapply same_id_same_row; [exact Hnd | exact Hrr | exact Hr | exact Hid]).
      subst. congruence.
    + intros i Hi. apply elem_of_app in Hi as [Hi | Hi].
      * apply Hkeep, Hrun, Hi.
      * apply list_elem_of_fmap in Hi as (r' & -> & Hr').
        apply Hnew, Hr'.
Qed.

(** C1. A lease batch holds only jobs whose row was PENDING and unlocked;
    the row of each has been set to RUNNING under the token of the
    statement, with [processed_on] set and [attempts_made] one higher, and
    the returned job mirrors that row.  Lease statements that run one after
    another, from any workers, never return the same job twice. *)
Theorem lease_at_most_one_leaser (s : Store) :
  NoDup (Row.id <$> jobs s) →
  (∀ w slotsToFill lockToken now batch s',
     Worker.fetchAndLockNextJobs slotsToFill lockToken now w s = Ok (batch, s') →
     ∀ job, job ∈ batch →
       ∃ r r', r ∈ jobs s ∧ Row.status r = PENDING ∧ Row.lock_token r = None
         ∧ r' ∈ jobs s' ∧ Row.id r' = Row.id r
         ∧ Row.status r' = RUNNING ∧ Row.lock_token r' = Some lockToken
         ∧ Row.processed_on r' = Some now
         ∧ Row.attempts_made r' = Row.attempts_made r + 1
         ∧ job = Worker.job_of_row r'
         ∧ Job.id job = val (Row.id r)
         ∧ Job.status job = RUNNING ∧ Job.lockToken job = val lockToken
         ∧ Job.processedOn job = val now
         ∧ Job.attemptsMade job = Row.attempts_made r + 1)
  ∧ (∀ reqs, NoDup (Job.id <$> concat (run_leases reqs s).1)).
Proof.
  intros Hnd. split.
  - intros w slotsToFill lockToken now batch s' H job Hjob.
    destruct (Z.lt_ge_cases slotsToFill 0) as [Hneg | Hpos].
    { rewrite fetchAndLockNextJobs_negative in H by done. discriminate. }
    rewrite fetchAndLockNextJobs_lease in H by done. cbv zeta in H.
    injection H as <- <-.
    apply list_elem_of_fmap in Hjob as (r' & -> & Hr').
    pose proof Hr' as Hin. apply list_elem_of_filter in Hin as [_ Hin].
    apply lease_returning in Hr' as (r & Hr & (Hp & _ & Hl) & ->); [| exact Hnd].
    exists r, (Worker.leased lockToken now r). simpl. repeat split; auto.
  - intros reqs.
    pose proof (run_leases_fresh reqs s [] Hnd (NoDup_nil_2)) as H.
    simpl in H. eapply NoDup_fmap_1 with (f := fun x => nullish x 0).
    rewrite <- list_fmap_compose. apply H. intros i Hi. inversion Hi.
Qed.

Lemma lease_at_most_one_leaser_witness :
  NoDup (Row.id <$> jobs ex_store)
  ∧ ∀ reqs, NoDup (Job.id <$> concat (run_leases reqs ex_store).1).
Proof.
  assert (H : NoDup (Row.id <$> jobs ex_store)) by (apply (bool_decide_unpack _); vm_compute; exact I).
  split; [exact H | exact (proj2 (lease_at_most_one_leaser ex_store H))].
Defined.

(** ** The order of a lease batch *)

Global Instance lease_le_total : Total Worker.lease_le.
Proof. intros a b. unfold Worker.lease_le. lia. Qed.

Global Instance lease_le_trans : Transitive Worker.lease_le.
Proof. intros a b c. unfold Worker.lease_le. lia. Qed.

Lemma fmap_filter_member {A} (f : A → Z) (ids : list Z) (l : list A) :
  NoDup (f <$> l) → NoDup ids → ids ⊆ f <$> l →
  f <$> filter (fun x => f x ∈ ids) l ≡ₚ ids.
Proof.
  intros Hl Hids Hsub. apply NoDup_Permutation; [| exact Hids |].
  - eapply sublist_NoDup; [exact Hl | apply fmap_sublist, sublist_filter].
  - intros i. rewrite list_elem_of_fmap. split.
    + intros (x & -> & Hx). apply list_elem_of_filter in Hx as [Hx _]. exact Hx.
    + intros Hi. pose proof (Hsub i Hi) as Hin.
      apply list_elem_of_fmap in Hin as (x & -> & Hx).
      exists x. split; [reflexivity |]. apply list_elem_of_filter. auto.
Qed.

Global Instance batch_le_dec : RelDecision batch_le.
Proof. intros a b; unfold batch_le; apply _. Defined.




(** ** Logs *)

Section Logs.

Lemma filter_all {A} (P : A → Prop) `{∀ x, Decision (P x)} (l : list A) :
  Forall P l → filter P l = l.
Proof.
  induction 1 as [|x l Hx _ IH]; [reflexivity |].
  rewrite filter_cons_True by done. by rewrite IH.
Qed.

Lemma filter_none {A} (P : A → Prop) `{∀ x, Decision (P x)} (l : list A) :
  Forall (fun x => ¬ P x) l → filter P l = [].
Proof.
  induction 1 as [|x l Hx _ IH]; [reflexivity |].
  by rewrite filter_cons_False.
Qed.

Lemma Sorted_seqZ a n : Sorted Z.le (seqZ a n).
Proof.
  unfold seqZ. generalize (Z.to_nat n) as k. intros k. generalize 0%nat as st.
  induction k as [|k IH]; intros st; simpl; constructor.
  - apply IH.
  - destruct k; simpl; constructor. lia.
Qed.

Global Instance seq_desc_total : Total Job.seq_desc.
Proof. intros a b. unfold Job.seq_desc. lia. Qed.

Lemma by_sequence_desc_sequences l a n :
  LogRow.sequence <$> l = seqZ a n →
  LogRow.sequence <$> Job.by_sequence_desc l = reverse (seqZ a n).
Proof.
  intros Hl.
  assert (Transitive (fun x y : Z => y ≤ x)) by (intros x y z ??; lia).
  assert (AntiSymm eq (fun x y : Z => y ≤ x)) by (intros x y ??; lia).
  apply (Sorted_unique (fun x y : Z => y ≤ x)).
  - apply (Sorted_fmap _ Job.seq_desc); [auto |].
    apply Sorted_merge_sort, _.
  - apply (Sorted_reverse Z.le), Sorted_seqZ.
  - unfold Job.by_sequence_desc. rewrite merge_sort_Permutation, Hl.
    symmetry. apply reverse_Permutation.
Qed.

Lemma next_sequence_top i s a n :
  0 < n →
  LogRow.sequence <$> Job.logs_of i (job_logs s) = seqZ a n →
  Job.next_sequence i s = a + n.
Proof.
  intros Hn Hl. apply by_sequence_desc_sequences in Hl.
  unfold Job.next_sequence.
  replace n with (Z.of_nat (S (Z.to_nat (n - 1)))) in Hl by lia.
  rewrite seqZ_S, reverse_app in Hl. simpl in Hl.
  destruct (Job.by_sequence_desc _) as [|x t]; [discriminate |].
  simpl in *. injection Hl as -> _. lia.
Qed.

Lemma next_sequence_first i s :
  Job.logs_of i (job_logs s) = [] → Job.next_sequence i s = 1.
Proof. intros H. unfold Job.next_sequence. rewrite H. reflexivity. Qed.

(** What the deletion of [cleanOldLogs] leaves of rows numbered
    [a, a+1, ...]: the [k] newest. *)
Lemma trim_consecutive (l : list LogRow.t) a (k : nat) :
  LogRow.sequence <$> l = seqZ a (Z.of_nat (length l)) →
  filter (fun r => LogRow.sequence r
                     ∉ LogRow.sequence <$> drop k (Job.by_sequence_desc l)) l
  = drop (length l - k) l.
Proof.
  intros Hl.
  assert (Hdel : LogRow.sequence <$> drop k (Job.by_sequence_desc l)
                 = reverse (seqZ a (Z.of_nat (length l - k)))).
  { rewrite fmap_drop, (by_sequence_desc_sequences l a _ Hl), drop_reverse.
    f_equal. rewrite length_seqZ, Nat2Z.id.
    unfold seqZ. rewrite !Nat2Z.id, <- fmap_take. f_equal.
    rewrite take_seq. f_equal. lia. }
  rewrite Hdel. clear Hdel.
  rewrite <- (take_drop (length l - k) l) at 1. rewrite filter_app.
  assert (Hk : ∀ j r, l !! j = Some r → LogRow.sequence r = a + Z.of_nat j).
  { intros j r Hj.
    assert (Hs : (LogRow.sequence <$> l) !! j = Some (LogRow.sequence r))
      by (rewrite list_lookup_fmap, Hj; reflexivity).
    rewrite Hl in Hs. apply lookup_seqZ in Hs. lia. }
  rewrite filter_none, filter_all; [reflexivity | |].
  - apply Forall_forall. intros r Hr. apply list_elem_of_lookup in Hr as [j Hj].
    rewrite lookup_drop in Hj. apply Hk in Hj.
    rewrite elem_of_reverse, elem_of_seqZ. lia.
  - apply Forall_forall. intros r Hr. apply list_elem_of_lookup in Hr as [j Hj].
    pose proof (lookup_lt_Some _ _ _ Hj) as Hlt. rewrite length_take in Hlt.
    rewrite lookup_take_lt in Hj by lia. apply Hk in Hj.
    intros Hc. apply Hc. rewrite elem_of_reverse, elem_of_seqZ. lia.
Qed.

End Logs.

Section AddLog.
Variables (j : Job.t) (i : Z).
Hypothesis Hid : Job.id j = val i.
Hypothesis Hi : i ≠ 0.
Hypothesis HK : 0 ≤ Job.keepLogs j.

Lemma logs_of_snoc l r :
  LogRow.job_id r = i → Job.logs_of i (l ++ [r]) = Job.logs_of i l ++ [r].
Proof.
  intros Hr. unfold Job.logs_of. rewrite filter_app. f_equal.
  by rewrite filter_cons_True.
Qed.

Lemma logs_of_deleteMany seqs s :
  Job.logs_of i (job_logs (Job.jobLog_deleteMany i seqs s))
  = filter (fun r => LogRow.sequence r ∉ seqs) (Job.logs_of i (job_logs s)).
Proof.
  unfold Job.jobLog_deleteMany, Job.logs_of. simpl.
  rewrite !list_filter_filter. apply list_filter_iff. intros r. tauto.
Qed.

(** One append to the job's rows [l], numbered up to [m]. *)
Lemma addLog_step s c l m :
  (∃ r, r ∈ jobs s ∧ Row.id r = i) →
  Job.logs_of i (job_logs s) = l →
  LogRow.sequence <$> l
    = seqZ (m - Z.of_nat (length l) + 1) (Z.of_nat (length l)) →
  (l = [] → m = 0) →
  ∃ s', Job.addLog c.1 c.2 j s = Ok s'
    ∧ jobs s' = jobs s
    ∧ Job.next_sequence i s = m + 1
    ∧ Job.logs_of i (job_logs s')
      = let l' := l ++ [{| LogRow.job_id := i; LogRow.message := c.1;
                           LogRow.sequence := m + 1; LogRow.created_at := c.2 |}] in
        if Job.keepLogs j =? 0 then l'
        else drop (length l' - Z.to_nat (Job.keepLogs j)) l'.
Proof.
  intros (r & Hr & Hrid) Hl Hseq Hm.
  assert (Hnext : Job.next_sequence i s = m + 1).
  { destruct l as [|x t] eqn:El.
    - rewrite next_sequence_first by done. rewrite Hm by done. reflexivity.
    - rewrite <- El in *. erewrite next_sequence_top; [| | rewrite Hl; exact Hseq].
      + lia.
      + rewrite El. simpl. lia. }
  assert (Hz : (i =? 0) = false) by (apply Z.eqb_neq, Hi).
  unfold Job.addLog. rewrite Hid. simpl truthy_number. rewrite Hz. simpl negb.
  cbv iota. simpl nullish.
  change (from_relation (Quoted "job")) with (Ok tt : result unit).
  change (from_relation (Quoted "job_log")) with (Ok tt : result unit).
  simpl mbind. unfold mbind, result_bind. rewrite Hnext.
  unfold Job.jobLog_create. simpl LogRow.job_id. simpl LogRow.sequence.
  assert (Hfk : existsb (has_id i) (jobs s) = true).
  { apply existsb_exists. exists r. split; [by apply list_elem_of_In |].
    unfold has_id. by apply Z.eqb_eq. }
  rewrite Hfk. simpl negb. cbv iota.
  assert (Huq : existsb (fun x => (LogRow.job_id x =? i) && (LogRow.sequence x =? m + 1))
                  (job_logs s) = false).
  { apply not_true_iff_false. intros Hex. apply existsb_exists in Hex as (x & Hx & Hb).
    apply andb_true_iff in Hb as [Hb1 Hb2]. apply Z.eqb_eq in Hb1, Hb2.
    assert (Hin : x ∈ l).
    { rewrite <- Hl. apply list_elem_of_filter. split; [done | by apply list_elem_of_In]. }
    assert (Hs : LogRow.sequence x ∈ LogRow.sequence <$> l)
      by (apply list_elem_of_fmap; eauto).
    rewrite Hseq in Hs. apply elem_of_seqZ in Hs. lia. }
  rewrite Huq.
  set (new := {| LogRow.job_id := i; LogRow.message := c.1;
                 LogRow.sequence := m + 1; LogRow.created_at := c.2 |}).
  set (s1 := with_job_logs s (job_logs s ++ [new])).
  assert (Hl1 : Job.logs_of i (job_logs s1) = l ++ [new]).
  { unfold s1. simpl. rewrite logs_of_snoc by reflexivity. by rewrite Hl. }
  assert (Hseq1 : LogRow.sequence <$> (l ++ [new])
                  = seqZ (m - Z.of_nat (length l) + 1) (Z.of_nat (length (l ++ [new])))).
  { rewrite length_app. simpl length. rewrite Nat.add_1_r, seqZ_S, fmap_app, Hseq.
    simpl. do 2 f_equal. lia. }
  unfold Job.cleanOldLogs. rewrite Hid. simpl truthy_number. rewrite Hz. simpl negb.
  simpl orb. cbv zeta.
  destruct (Z.eqb_spec (Job.keepLogs j) 0) as [HK0 | HK0].
  { exists s1. split; [reflexivity |]. split; [reflexivity |]. split; [reflexivity | exact Hl1]. }
  unfold Job.jobLog_findMany_skip.
  destruct (Z.ltb_spec (Job.keepLogs j) 0) as [? | _]; [lia |].
  unfold mbind, result_bind. simpl nullish. rewrite Hl1.
  destruct (Z.ltb_spec 0 (Z.of_nat (length (drop (Z.to_nat (Job.keepLogs j))
                                              (Job.by_sequence_desc (l ++ [new])))))) as [Hpos | Hzero].
  - eexists. split; [reflexivity |]. split; [reflexivity |]. split; [reflexivity |].
    rewrite logs_of_deleteMany, Hl1.
    apply (trim_consecutive (l ++ [new]) _ _ Hseq1).
  - exists s1. split; [reflexivity |]. split; [reflexivity |]. split; [reflexivity |].
    rewrite Hl1. rewrite length_drop in Hzero.
    unfold Job.by_sequence_desc in Hzero. rewrite merge_sort_Permutation in Hzero.
    replace (length (l ++ [new]) - Z.to_nat (Job.keepLogs j))%nat with 0%nat by lia.
    reflexivity.
Qed.

End AddLog.

Section Retention.
Variables (j : Job.t) (i : Z).
Hypothesis Hid : Job.id j = val i.
Hypothesis Hi : i ≠ 0.
Hypothesis HK : 0 ≤ Job.keepLogs j.

Lemma drop_seqZ a n (d : nat) :
  Z.of_nat d ≤ n → drop d (seqZ a n) = seqZ (a + Z.of_nat d) (n - Z.of_nat d).
Proof.
  intros Hd. replace n with (Z.of_nat d + (n - Z.of_nat d)) at 1 by lia.
  rewrite seqZ_app by lia. rewrite drop_app_length'; [reflexivity |].
  rewrite length_seqZ. lia.
Qed.

Lemma appended_sequences calls :
  LogRow.sequence <$> appended i calls = seqZ 1 (Z.of_nat (length calls)).
Proof.
  induction calls as [|c calls IH] using rev_ind; [reflexivity |].
  unfold appended in *. rewrite imap_app, fmap_app, IH, length_app. simpl.
  rewrite Nat.add_1_r, seqZ_S. do 2 f_equal. lia.
Qed.

Lemma appended_snoc calls c :
  appended i (calls ++ [c])
  = appended i calls
    ++ [{| LogRow.job_id := i; LogRow.message := c.1;
           LogRow.sequence := Z.of_nat (length calls) + 1;
           LogRow.created_at := c.2 |}].
Proof.
  unfold appended. rewrite imap_app. simpl. rewrite Nat.add_0_r. reflexivity.
Qed.

Lemma length_appended calls : length (appended i calls) = length calls.
Proof. apply length_imap. Qed.

(** After the calls, the job's rows are the newest [kept K n] of the rows
    appended. *)
Lemma addLogs_window calls s :
  (∃ r, r ∈ jobs s ∧ Row.id r = i) →
  Job.logs_of i (job_logs s) = [] →
  jobs (addLogs calls j s) = jobs s
  ∧ Job.logs_of i (job_logs (addLogs calls j s))
    = drop (length calls - kept (Job.keepLogs j) (length calls)) (appended i calls).
Proof.
  intros Hrow Hempty.
  induction calls as [|c calls [IHj IHl]] using rev_ind.
  { simpl. split; [reflexivity |]. rewrite Hempty. reflexivity. }
  unfold addLogs in *. rewrite foldl_app. simpl.
  set (s' := foldl (addLog_call j) s calls) in *.
  set (n := length calls) in *.
  assert (Hkn : (kept (Job.keepLogs j) n ≤ n)%nat) by (unfold kept; destruct (_ =? _); lia).
  assert (Hlen : length (drop (n - kept (Job.keepLogs j) n) (appended i calls)) = kept (Job.keepLogs j) n).
  { rewrite length_drop, length_appended. fold n. lia. }
  destruct (addLog_step j i Hid Hi HK s' c _ (Z.of_nat n)
              ltac:(rewrite IHj; exact Hrow) IHl) as (s'' & Hok & Hj & _ & Hl).
  - rewrite Hlen, fmap_drop, appended_sequences. fold n.
    rewrite drop_seqZ by lia. f_equal; lia.
  - intros Hnil. rewrite Hnil in Hlen. simpl in Hlen. unfold kept in Hlen.
    destruct (Z.eqb_spec (Job.keepLogs j) 0); lia.
  - unfold addLog_call. rewrite Hok. split; [congruence |].
    rewrite Hl. cbv zeta. rewrite length_app, Hlen, length_app. simpl length.
    rewrite appended_snoc. fold n.
    rewrite <- (drop_app_le _ _ (n - kept (Job.keepLogs j) n)) by (rewrite length_appended; fold n; lia).
    unfold kept in *. destruct (Z.eqb_spec (Job.keepLogs j) 0) as [HK0 | HK0].
    + f_equal. lia.
    + rewrite drop_drop. f_equal. lia.
Qed.

Lemma numbered_to_start s :
  Job.logs_of i (job_logs s) = [] → numbered_to i 0 s.
Proof. intros H. unfold numbered_to. rewrite H. simpl. split; reflexivity || auto. Qed.

Lemma addLog_numbered s c n :
  (∃ r, r ∈ jobs s ∧ Row.id r = i) →
  numbered_to i n s →
  ∃ s', Job.addLog c.1 c.2 j s = Ok s'
    ∧ jobs s' = jobs s
    ∧ Job.next_sequence i s = n + 1
    ∧ numbered_to i (n + 1) s'.
Proof.
  intros Hrow [Hseq Hnil].
  destruct (addLog_step j i Hid Hi HK s c _ n Hrow eq_refl Hseq Hnil)
    as (s' & Hok & Hj & Hnext & Hl).
  exists s'. split; [exact Hok |]. split; [exact Hj |]. split; [exact Hnext |].
  unfold numbered_to. rewrite Hl. cbv zeta.
  set (l := Job.logs_of i (job_logs s)) in *.
  set (new := LogRow.mk _ _ _ _).
  assert (Hseq1 : LogRow.sequence <$> (l ++ [new])
                  = seqZ (n - Z.of_nat (length l) + 1) (Z.of_nat (length (l ++ [new])))).
  { rewrite length_app. simpl length. rewrite Nat.add_1_r, seqZ_S, fmap_app, Hseq.
    simpl. do 2 f_equal. lia. }
  destruct (Z.eqb_spec (Job.keepLogs j) 0) as [HK0 | HK0].
  - split.
    + rewrite Hseq1. rewrite length_app. simpl length. f_equal; lia.
    + intros Hc. destruct l; discriminate.
  - assert (Hlen : (length (l ++ [new]) = length l + 1)%nat)
      by (rewrite length_app; reflexivity).
    split.
    + rewrite fmap_drop, Hseq1, length_drop, drop_seqZ by lia. f_equal; lia.
    + intros Hc. apply (f_equal length) in Hc. rewrite length_drop in Hc.
      simpl in Hc. lia.
Qed.

Lemma assigned_sequences_numbered calls : ∀ s n,
  (∃ r, r ∈ jobs s ∧ Row.id r = i) →
  numbered_to i n s →
  assigned_sequences calls j s = seqZ (n + 1) (Z.of_nat (length calls)).
Proof.
  induction calls as [|c calls IH]; intros s n Hrow Hn; [reflexivity |].
  destruct (addLog_numbered s c n Hrow Hn) as (s' & Hok & Hj & Hnext & Hn').
  simpl. rewrite Hok, Hid. simpl nullish. rewrite Hnext.
  rewrite (IH s' (n + 1)); [| rewrite Hj; exact Hrow | exact Hn'].
  rewrite (seqZ_cons (n + 1)) by lia. do 2 f_equal; lia.
Qed.

End Retention.

(** C3. For a stored job with [keepLogs = K], [K ≥ 1], that has no log
    yet: after [N] calls of [addLog], [min N K] rows of the job survive;
    they are the last rows appended, those numbered [N - min N K + 1] to
    [N]. *)
Theorem addLog_retention (j : Job.t) (i : Z) (s : Store)
    (calls : list (string * Z)) :
  Job.id j = val i → i ≠ 0 →
  1 ≤ Job.keepLogs j →
  (∃ r, r ∈ jobs s ∧ Row.id r = i) →
  Job.logs_of i (job_logs s) = [] →
  let N := Z.of_nat (length calls) in
  let K := Job.keepLogs j in
  let live := Job.logs_of i (job_logs (addLogs calls j s)) in
  Z.of_nat (length live) = Z.min N K
  ∧ live = drop (Z.to_nat (N - Z.min N K)) (appended i calls)
  ∧ LogRow.sequence <$> live = seqZ (N - Z.min N K + 1) (Z.min N K).
Proof.
  intros Hid Hi HK Hrow Hempty N K live.
  destruct (addLogs_window j i Hid Hi ltac:(lia) calls s Hrow Hempty) as [_ Hl].
  fold live in Hl. unfold kept in Hl.
  destruct (Z.eqb_spec (Job.keepLogs j) 0) as [? | _]; [lia |].
  assert (Hd : (length calls - Nat.min (length calls) (Z.to_nat (Job.keepLogs j)))%nat
               = Z.to_nat (N - Z.min N K)) by (unfold N, K; lia).
  rewrite Hd in Hl. split; [| split; [exact Hl |]].
  - rewrite Hl, length_drop, length_appended. unfold N, K. lia.
  - rewrite Hl, fmap_drop, appended_sequences, drop_seqZ by (unfold N, K; lia).
    f_equal; unfold N, K; lia.
Qed.

Lemma addLog_retention_witness :
  let live := Job.logs_of 1 (job_logs (addLogs ex_calls ex_job ex_store)) in
  Z.of_nat (length live) = 3
  ∧ live = drop 2 (appended 1 ex_calls)
  ∧ LogRow.sequence <$> live = [3; 4; 5].
Proof.
  apply (addLog_retention ex_job 1 ex_store ex_calls).
  - reflexivity.
  - lia.
  - simpl. lia.
  - exists (ex_row 1 5 10 PENDING). split; [apply list_elem_of_here | reflexivity].
  - reflexivity.
Defined.

Lemma addLog_negative_keepLogs (j : Job.t) (i : Z) (s : Store) (c : string * Z) :
  Job.id j = val i → i ≠ 0 → Job.keepLogs j < 0 →
  ∃ e, Job.addLog c.1 c.2 j s = Throw e.
Proof.
  intros Hid Hi HK.
  assert (Hz : (i =? 0) = false) by (apply Z.eqb_neq, Hi).
  unfold Job.addLog. rewrite Hid. simpl truthy_number. rewrite Hz. simpl negb.
  cbv iota.
  change (from_relation (Quoted "job")) with (Ok tt : result unit).
  change (from_relation (Quoted "job_log")) with (Ok tt : result unit).
  unfold mbind, result_bind.
  destruct (Job.jobLog_create _ s) as [s1 | e]; [| simpl; eauto].
  unfold Job.cleanOldLogs. rewrite Hid. simpl truthy_number. rewrite Hz. simpl negb.
  destruct (Z.eqb_spec (Job.keepLogs j) 0) as [? | _]; [lia |].
  simpl orb. cbv iota. unfold Job.jobLog_findMany_skip.
  destruct (Z.ltb_spec (Job.keepLogs j) 0) as [_ | ?]; [| lia].
  simpl. eauto.
Qed.

Lemma assigned_sequences_negative (j : Job.t) (i : Z) calls : ∀ s,
  Job.id j = val i → i ≠ 0 → Job.keepLogs j < 0 →
  assigned_sequences calls j s = [] ∧ addLogs calls j s = s.
Proof.
  induction calls as [|c calls IH]; intros s Hid Hi HK; [split; reflexivity |].
  destruct (addLog_negative_keepLogs j i s c Hid Hi HK) as [e He].
  simpl. unfold addLogs. simpl. unfold addLog_call at 2. rewrite He.
  apply IH; assumption.
Qed.

(** C4. For a stored job that has no log yet: the rows that successive
    calls of [addLog] insert are numbered 1, 2, ..., [N], where [N] is the
    number of appends made (every call makes one when [keepLogs] is not
    negative); the numbers of the rows that survive are the last [L] of
    these, for some [L]. *)
Theorem addLog_dense_sequences (j : Job.t) (i : Z) (s : Store)
    (calls : list (string * Z)) :
  Job.id j = val i → i ≠ 0 →
  (∃ r, r ∈ jobs s ∧ Row.id r = i) →
  Job.logs_of i (job_logs s) = [] →
  let N := Z.of_nat (length (assigned_sequences calls j s)) in
  assigned_sequences calls j s = seqZ 1 N
  ∧ (0 ≤ Job.keepLogs j → N = Z.of_nat (length calls))
  ∧ ∃ L, 0 ≤ L ≤ N
      ∧ LogRow.sequence <$> Job.logs_of i (job_logs (addLogs calls j s))
        = seqZ (N - L + 1) L.
Proof.
  intros Hid Hi Hrow Hempty.
  destruct (Z.lt_ge_cases (Job.keepLogs j) 0) as [Hneg | HK].
  - destruct (assigned_sequences_negative j i calls s Hid Hi Hneg) as [Ha Hs].
    rewrite Ha, Hs, Hempty. simpl. split; [reflexivity |]. split; [lia |].
    exists 0. split; [lia | reflexivity].
  - pose proof (assigned_sequences_numbered j i Hid Hi HK calls s 0 Hrow
                  (numbered_to_start i s Hempty)) as Ha.
    rewrite Ha. rewrite length_seqZ, Nat2Z.id. cbv zeta.
    split; [reflexivity |]. split; [reflexivity |].
    destruct (addLogs_window j i Hid Hi HK calls s Hrow Hempty) as [_ Hl].
    rewrite Hl, fmap_drop, appended_sequences.
    set (n := length calls).
    set (k := kept (Job.keepLogs j) n).
    assert (Hk : (k ≤ n)%nat) by (unfold k, kept; destruct (_ =? _); lia).
    exists (Z.of_nat k). split; [lia |].
    rewrite drop_seqZ by lia. f_equal; lia.
Qed.

Lemma addLog_dense_sequences_witness :
  assigned_sequences ex_calls ex_job ex_store = [1; 2; 3; 4; 5]
  ∧ ∃ L, 0 ≤ L ≤ 5
      ∧ LogRow.sequence <$> Job.logs_of 1 (job_logs (addLogs ex_calls ex_job ex_store))
        = seqZ (5 - L + 1) L.
Proof.
  destruct (addLog_dense_sequences ex_job 1 ex_store ex_calls) as (Ha & _ & Hl).
  - reflexivity.
  - lia.
  - exists (ex_row 1 5 10 PENDING). split; [apply list_elem_of_here | reflexivity].
  - reflexivity.
  - split; [exact Ha | exact Hl].
Defined.

(** ** Transitions of a stored job *)

Section Updates.

Lemma find_update_rows i f (l : list Row.t) :
  (∀ r, Row.id (f r) = Row.id r) →
  List.find (has_id i) (update_rows (has_id i) f l) = f <$> List.find (has_id i) l.
Proof.
  intros Hf. induction l as [|x l IH]; [reflexivity |]. simpl.
  destruct (has_id i x) eqn:E; simpl.
  - unfold has_id in *. rewrite Hf, E. reflexivity.
  - rewrite E. exact IH.
Qed.

Lemma find_update_rows_ne i k f (l : list Row.t) :
  k ≠ i → (∀ r, Row.id (f r) = Row.id r) →
  List.find (has_id k) (update_rows (has_id i) f l) = List.find (has_id k) l.
Proof.
  intros Hk Hf. induction l as [|x l IH]; [reflexivity |]. simpl.
  destruct (has_id i x) eqn:E; simpl.
  - unfold has_id in *. rewrite Hf. apply Z.eqb_eq in E.
    destruct (Z.eqb_spec (Row.id x) k); [lia | exact IH].
  - destruct (has_id k x); [reflexivity | exact IH].
Qed.

Lemma apply_update_id d tu r : Row.id (apply_update d tu r) = Row.id r.
Proof. reflexivity. Qed.

(** An update of a row that exists, with a queue to connect to. *)
Lemma job_update_found i d tu s r :
  find_job i s = Some r →
  match u_queue_connect d with Some q => queue_exists q s | None => true end = true →
  ∃ s', job_update i d tu s = Ok s'
    ∧ find_job i s' = Some (apply_update d tu r)
    ∧ (∀ k, k ≠ i → find_job k s' = find_job k s)
    ∧ job_logs s' = job_logs s ∧ queues s' = queues s
    ∧ notifications s' = notifications s.
Proof.
  intros Hr Hq. unfold job_update. rewrite Hr, Hq. eexists. split; [reflexivity |].
  unfold find_job in *. simpl. split; [| split; [| auto]].
  - rewrite find_update_rows by apply apply_update_id. rewrite Hr. reflexivity.
  - intros k Hk. apply find_update_rows_ne; [exact Hk | apply apply_update_id].
Qed.

Lemma select_job_for_update_job i s :
  select_job_for_update (Unquoted "job") i s
  = Ok (filter (fun r => Row.id r = i) (jobs s)).
Proof. reflexivity. Qed.

(** [save] of a stored job. *)
Lemma save_stored j i s now :
  stored j i s →
  ∃ r s', find_job i s = Some r
    ∧ Job.save now j s = (Job.set_updatedAt (val now) j, Ok s')
    ∧ find_job i s' = Some (apply_update (Job.jobData j) now r)
    ∧ (∀ k, k ≠ i → find_job k s' = find_job k s)
    ∧ job_logs s' = job_logs s ∧ queues s' = queues s
    ∧ notifications s' = notifications s.
Proof.
  intros (Hid & Hi & [r Hr] & Hq).
  destruct (job_update_found i (Job.jobData j) now s r Hr Hq) as (s' & Hok & H).
  exists r, s'. split; [exact Hr |]. split; [| exact H].
  unfold Job.save. rewrite Hid. simpl.
  destruct (Z.eqb_spec i 0); [contradiction |]. simpl. rewrite Hok. reflexivity.
Qed.

End Updates.

(** Enter a [moveTo...] method of a job stored under [i], up to its call of
    [save]; then take the object [j1] that is saved. *)
Ltac enter_transition Hid i :=
  rewrite Hid; simpl truthy_number;
  destruct (Z.eqb_spec i 0); [contradiction |];
  simpl negb; cbv iota; simpl nullish;
  rewrite select_job_for_update_job; cbv iota zeta.

Ltac save_as j1 Hsave :=
  match goal with
  | |- context [Job.save _ ?x _] => change x with j1
  end;
  rewrite Hsave.

(** C6, as stated, fails: [moveToRunning] on job 5 of [ex_store], which is
    COMPLETED, does not throw; it makes the job RUNNING. *)
Lemma moveToRunning_asserts_pending_counterexample :
  ¬ (∀ j i s r lockToken now tu,
       stored j i s → find_job i s = Some r → Row.status r ≠ PENDING →
       ∃ e, (Job.moveToRunning lockToken now tu j s).2 = Throw e).
Proof.
  intros H.
  destruct (H ex_completed 5 ex_store (ex_row 5 0 1 COMPLETED) "tok" 50 51)
    as [e He].
  - apply (bool_decide_unpack _). vm_compute. exact I.
  - reflexivity.
  - discriminate.
  - vm_compute in He. discriminate.
Qed.

(** C6, amended.  [moveToRunning(lockToken)] makes no check of the current
    status: for a stored job, whatever its status, it succeeds and sets
    [status = RUNNING], [lock_token = lockToken], [processed_on = now] and
    [attempts_made] to the object's [attemptsMade + 1], in the object and
    in the row; no other row changes. *)
Theorem moveToRunning_unconditional (j : Job.t) (i : Z) (s : Store)
    (lockToken : string) (now tu : Z) :
  stored j i s →
  ∃ j' s' r',
    Job.moveToRunning lockToken now tu j s = (j', Ok s')
    ∧ Job.status j' = RUNNING ∧ Job.lockToken j' = val lockToken
    ∧ Job.processedOn j' = val now
    ∧ Job.attemptsMade j' = Job.attemptsMade j + 1
    ∧ find_job i s' = Some r'
    ∧ Row.status r' = RUNNING ∧ Row.lock_token r' = Some lockToken
    ∧ Row.processed_on r' = Some now
    ∧ Row.attempts_made r' = Job.attemptsMade j + 1
    ∧ (∀ k, k ≠ i → find_job k s' = find_job k s).
Proof.
  intros Hst. pose proof Hst as (Hid & Hi & _ & Hq).
  set (j1 := Job.set_attemptsMade (Job.attemptsMade j + 1)
               (Job.set_processedOn (val now)
                  (Job.set_lockToken (val lockToken) (Job.set_status RUNNING j)))).
  assert (Hst1 : stored j1 i s) by exact Hst.
  destruct (save_stored j1 i s tu Hst1) as (r & s' & Hr & Hsave & Hr' & Hother & _).
  exists (Job.set_updatedAt (val tu) j1), s', (apply_update (Job.jobData j1) tu r).
  split.
  - unfold Job.moveToRunning. enter_transition Hid i. save_as j1 Hsave.
    reflexivity.
  - repeat split; auto.
Qed.

Lemma moveToRunning_unconditional_witness :
  stored ex_completed 5 ex_store
  ∧ ∃ j' s' r',
      Job.moveToRunning "tok" 50 51 ex_completed ex_store = (j', Ok s')
      ∧ Job.status j' = RUNNING ∧ Job.lockToken j' = val "tok"
      ∧ Job.processedOn j' = val 50
      ∧ Job.attemptsMade j' = Job.attemptsMade ex_completed + 1
      ∧ find_job 5 s' = Some r'
      ∧ Row.status r' = RUNNING ∧ Row.lock_token r' = Some "tok"
      ∧ Row.processed_on r' = Some 50
      ∧ Row.attempts_made r' = Job.attemptsMade ex_completed + 1
      ∧ (∀ k, k ≠ 5 → find_job k s' = find_job k ex_store).
Proof.
  assert (H : stored ex_completed 5 ex_store)
    by (apply (bool_decide_unpack _); vm_compute; exact I).
  split; [exact H |].
  exact (moveToRunning_unconditional ex_completed 5 ex_store "tok" 50 51 H).
Defined.

(** *** Cancellation *)

(** The relation ["Job"] that the lock query of [cancelJob] names does not
    exist (the table is [job]): the call throws for every job. *)
Lemma cancelJob_undefined_relation jobId reason now tu s :
  Job.cancelJob jobId reason now tu s
  = Throw (Wrapped "Error cancelling job" (UndefinedRelation "Job")).
Proof. reflexivity. Qed.

(** The status check of [cancelJob], whatever relation the lock query
    names. *)
Lemma cancelJob_on_guard rel jobId reason now tu s r :
  find_job jobId s = Some r → Row.status r ≠ PENDING →
  ∃ e, Job.cancelJob_on rel jobId reason now tu s = Throw e.
Proof.
  intros Hr Hs. unfold Job.cancelJob_on, select_job_for_update.
  destruct (from_relation rel) as [[] | e]; simpl; [| eauto].
  destruct (_ =? 0); simpl; [eauto |].
  rewrite Hr. rewrite bool_decide_true by done. simpl. eauto.
Qed.

(** With the lock query on [job], a PENDING job is cancelled. *)
Lemma cancelJob_on_job_pending jobId reason now tu s r :
  find_job jobId s = Some r → Row.status r = PENDING →
  ∃ s' r', Job.cancelJob_on (Quoted "job") jobId reason now tu s = Ok s'
    ∧ find_job jobId s' = Some r'
    ∧ Row.status r' = CANCELLED
    ∧ Row.failed_reason r' = Some (default "Job cancelled by user" reason)
    ∧ Row.finished_on r' = Some now
    ∧ Row.lock_token r' = None.
Proof.
  intros Hr Hs.
  destruct (job_update_found jobId
              (Job.cancel_data (default "Job cancelled by user" reason) now)
              tu s r Hr eq_refl) as (s' & Hok & Hr' & _).
  exists s', (apply_update
                (Job.cancel_data (default "Job cancelled by user" reason) now) tu r).
  split; [| split; [exact Hr' | repeat split]].
  unfold Job.cancelJob_on, select_job_for_update.
  change (from_relation (Quoted "job")) with (Ok tt : result unit).
  unfold mbind, result_bind.
  assert (Hne : (Z.of_nat (length (filter (fun x => Row.id x = jobId) (jobs s))) =? 0)
                = false).
  { apply Z.eqb_neq. unfold find_job in Hr. apply find_some in Hr as [Hin Hid].
    unfold has_id in Hid. apply Z.eqb_eq in Hid.
    assert (Hf : r ∈ filter (fun x => Row.id x = jobId) (jobs s))
      by (apply list_elem_of_filter; split; [exact Hid | by apply list_elem_of_In]).
    destruct (filter _ _); [inversion Hf | simpl; lia]. }
  rewrite Hne, Hr. rewrite bool_decide_false by (intros Hc; contradiction).
  rewrite Hok. reflexivity.
Qed.

(** C5, as stated, fails: [moveToCancelled] on job 3 of [ex_store], which
    is RUNNING, does not throw. *)
Lemma cancel_non_pending_counterexample :
  ¬ (∀ j i s r reason now tu,
       stored j i s → find_job i s = Some r → Row.status r ≠ PENDING →
       ∃ e, (Job.moveToCancelled reason now tu j s).2 = Throw e).
Proof.
  intros H.
  destruct (H ex_running 3 ex_store (ex_row 3 1 5 RUNNING) None 50 51) as [e He].
  - apply (bool_decide_unpack _). vm_compute. exact I.
  - reflexivity.
  - discriminate.
  - vm_compute in He. discriminate.
Qed.

(** C5, amended.  [moveToCancelled] makes no check of the current status:
    for a stored job it succeeds from any status and sets
    [status = CANCELLED], [failed_reason] to the reason,
    [finished_on = now] and [lock_token = NULL], and changes no other row.
    The static [cancelJob] throws, and so changes nothing, for every job
    whose status is not PENDING. *)
Theorem cancellation_guard (j : Job.t) (i : Z) (s : Store)
    (reason : option string) (now tu : Z) :
  stored j i s →
  (∃ j' s' r',
     Job.moveToCancelled reason now tu j s = (j', Ok s')
     ∧ find_job i s' = Some r'
     ∧ Row.status r' = CANCELLED
     ∧ Row.failed_reason r' = Some (default "Job cancelled by user" reason)
     ∧ Row.finished_on r' = Some now
     ∧ Row.lock_token r' = None
     ∧ (∀ k, k ≠ i → find_job k s' = find_job k s))
  ∧ (∀ r, find_job i s = Some r → Row.status r ≠ PENDING →
       ∃ e, Job.cancelJob i reason now tu s = Throw e).
Proof.
  intros Hst. split; [| intros r Hr Hs; eapply cancelJob_on_guard; eauto].
  pose proof Hst as (Hid & Hi & _ & Hq).
  set (j1 := Job.set_lockToken null
               (Job.set_finishedOn (val now)
                  (Job.set_failedReason (val (default "Job cancelled by user" reason))
                     (Job.set_status CANCELLED j)))).
  assert (Hst1 : stored j1 i s) by exact Hst.
  destruct (save_stored j1 i s tu Hst1) as (r & s' & Hr & Hsave & Hr' & Hother & _).
  exists (Job.set_updatedAt (val tu) j1), s', (apply_update (Job.jobData j1) tu r).
  split.
  - unfold Job.moveToCancelled. enter_transition Hid i. save_as j1 Hsave.
    reflexivity.
  - repeat split; auto.
Qed.

Lemma cancellation_guard_witness :
  stored ex_running 3 ex_store
  ∧ (∃ j' s' r',
       Job.moveToCancelled None 50 51 ex_running ex_store = (j', Ok s')
       ∧ find_job 3 s' = Some r'
       ∧ Row.status r' = CANCELLED
       ∧ Row.failed_reason r' = Some "Job cancelled by user"
       ∧ Row.finished_on r' = Some 50
       ∧ Row.lock_token r' = None
       ∧ (∀ k, k ≠ 3 → find_job k s' = find_job k ex_store))
  ∧ (∀ r, find_job 3 ex_store = Some r → Row.status r ≠ PENDING →
       ∃ e, Job.cancelJob 3 None 50 51 ex_store = Throw e).
Proof.
  assert (H : stored ex_running 3 ex_store)
    by (apply (bool_decide_unpack _); vm_compute; exact I).
  split; [exact H |].
  exact (cancellation_guard ex_running 3 ex_store None 50 51 H).
Defined.

(** *** [Job.retry] *)

(** C10, as stated, fails: the update also sets [updated_at]
    ([@updatedAt] of the schema). *)
Lemma retry_frame_counterexample :
  ¬ (∀ s jobId tu s' r,
       find_job jobId s = Some r → Job.retry jobId tu s = Ok s' →
       find_job jobId s' = Some (retry_as_claimed r)).
Proof.
  intros H.
  specialize (H ex_store 3 99 _ (ex_row 3 1 5 RUNNING) eq_refl eq_refl).
  vm_compute in H. discriminate.
Qed.

Lemma apply_retry_data tu r : apply_update Job.retry_data tu r = retry_effect tu r.
Proof. destruct r; reflexivity. Qed.

(** C10, amended.  [Job.retry(jobId)] makes no check of the current
    status; for every job with a row it sets [status] to PENDING and
    [failed_reason], [stack_trace], [lock_token], [finished_on] and
    [exit_code] to NULL, and [updated_at] to the time of the update; every
    other column of the row, [attempts_made] among them, every other row
    and every other table are as before. *)
Theorem retry_frame (s : Store) (jobId tu : Z) (r : Row.t) :
  find_job jobId s = Some r →
  ∃ s', Job.retry jobId tu s = Ok s'
    ∧ find_job jobId s' = Some (retry_effect tu r)
    ∧ Row.attempts_made (retry_effect tu r) = Row.attempts_made r
    ∧ (∀ k, k ≠ jobId → find_job k s' = find_job k s)
    ∧ job_logs s' = job_logs s ∧ queues s' = queues s
    ∧ notifications s' = notifications s.
Proof.
  intros Hr.
  destruct (job_update_found jobId Job.retry_data tu s r Hr eq_refl)
    as (s' & Hok & Hr' & Hrest).
  exists s'. unfold Job.retry. rewrite Hok. split; [reflexivity |].
  rewrite <- apply_retry_data. split; [exact Hr' |]. split; [reflexivity | exact Hrest].
Qed.

Lemma retry_frame_witness :
  find_job 3 ex_store = Some (ex_row 3 1 5 RUNNING)
  ∧ ∃ s', Job.retry 3 99 ex_store = Ok s'
      ∧ find_job 3 s' = Some (retry_effect 99 (ex_row 3 1 5 RUNNING))
      ∧ Row.attempts_made (retry_effect 99 (ex_row 3 1 5 RUNNING))
        = Row.attempts_made (ex_row 3 1 5 RUNNING)
      ∧ (∀ k, k ≠ 3 → find_job k s' = find_job k ex_store)
      ∧ job_logs s' = job_logs ex_store ∧ queues s' = queues ex_store
      ∧ notifications s' = notifications ex_store.
Proof.
  split; [reflexivity |].
  exact (retry_frame ex_store 3 99 (ex_row 3 1 5 RUNNING) eq_refl).
Defined.

(** *** [moveToFailed] *)

(** The row that [moveToFailed] stores.  In the retry branch the object
    holds [undefined] for [processedOn], [finishedOn], [failedReason] and
    [stackTrace], and the update leaves these four columns as they
    were. *)
Lemma moveToFailed_stored_row (j : Job.t) (i : Z) (s : Store) (error : JsError)
    (exitCode : js Z) (stdOut stdErr : js string) (tp tf tu : Z) :
  stored j i s →
  ∃ j' s' r r',
    find_job i s = Some r
    ∧ Job.moveToFailed error exitCode stdOut stdErr tp tf tu j s = (j', Ok s')
    ∧ find_job i s' = Some r'
    ∧ Row.lock_token r' = None
    ∧ Row.attempts_made r' = Job.attemptsMade j
    ∧ Row.exit_code r' = set_nullable exitCode (Row.exit_code r)
    ∧ if Job.attemptsMade j <? Job.maxAttempts j then
        Row.status r' = PENDING
        ∧ Row.processed_on r' = Row.processed_on r
        ∧ Row.finished_on r' = Row.finished_on r
        ∧ Row.failed_reason r' = Row.failed_reason r
        ∧ Row.stack_trace r' = Row.stack_trace r
        ∧ notifications s' = notifications s ++ [("new_job", Job.name j)]
      else
        Row.status r' = FAILED
        ∧ Row.processed_on r' = Some tp
        ∧ Row.finished_on r' = Some tf
        ∧ Row.failed_reason r' = Some (nullish (message error) (toString error))
        ∧ Row.stack_trace r' = Some (nullish (stack error) (toString error))
        ∧ notifications s' = notifications s.
Proof.
  intros Hst. pose proof Hst as (Hid & Hi & _ & Hq).
  set (j0 := Job.set_finishedOn (val tf)
               (Job.set_processedOn (val tp)
                  (Job.set_stdErr stdErr
                     (Job.set_stdOut stdOut
                        (Job.set_lockToken null
                           (Job.set_exitCode exitCode
                              (Job.set_stackTrace
                                 (val (nullish (stack error) (toString error)))
                                 (Job.set_failedReason
                                    (val (nullish (message error) (toString error)))
                                    j)))))))).
  set (j1 := Job.set_stackTrace undefined
               (Job.set_failedReason undefined
                  (Job.set_processedOn undefined
                     (Job.set_lockToken null
                        (Job.set_finishedOn undefined
                           (Job.set_status PENDING j0)))))).
  set (j2 := Job.set_status FAILED j0).
  assert (Hunf : Job.moveToFailed error exitCode stdOut stdErr tp tf tu j s
                 = if Job.attemptsMade j <? Job.maxAttempts j
                   then let (j', r) := Job.save tu j1 s in
                        (j', rethrow "Error moving job to failed"
                               (Job.notifyNewJob j' <$> r))
                   else let (j', r) := Job.save tu j2 s in
                        (j', rethrow "Error moving job to failed" r)).
  { unfold Job.moveToFailed. rewrite Hid. simpl truthy_number.
    destruct (Z.eqb_spec i 0); [contradiction |]. reflexivity. }
  rewrite Hunf. clear Hunf.
  destruct (Job.attemptsMade j <? Job.maxAttempts j).
  - assert (Hst1 : stored j1 i s) by exact Hst.
    destruct (save_stored j1 i s tu Hst1)
      as (r & s' & Hr & Hsave & Hr' & _ & _ & _ & Hn).
    rewrite Hsave.
    exists (Job.set_updatedAt (val tu) j1),
           (Job.notifyNewJob (Job.set_updatedAt (val tu) j1) s'),
           r, (apply_update (Job.jobData j1) tu r).
    split; [exact Hr |]. split; [reflexivity |]. split; [exact Hr' |].
    simpl. rewrite Hn. repeat split; reflexivity.
  - assert (Hst2 : stored j2 i s) by exact Hst.
    destruct (save_stored j2 i s tu Hst2)
      as (r & s' & Hr & Hsave & Hr' & _ & _ & _ & Hn).
    rewrite Hsave.
    exists (Job.set_updatedAt (val tu) j2), s', r,
           (apply_update (Job.jobData j2) tu r).
    split; [exact Hr |]. split; [reflexivity |]. split; [exact Hr' |].
    simpl. repeat split; auto.
Qed.

(** C2 at a failing input.  Job 4 of [ex_store] ([max_attempts = 2]) is
    leased at time 100 and its attempt fails: [moveToFailed] takes the
    retry branch, the row is PENDING and unlocked again and keeps
    [attempts_made = 1], but [processed_on] is still the time of the lease,
    not NULL; only the object has lost it. *)
Lemma moveToFailed_retry_keeps_processed_on :
  ∃ job s1 job' s2 r',
    Worker.fetchAndLockNextJobs 1 "tok" 100 ex_worker ex_store = Ok ([job], s1)
    ∧ Job.id job = val 4
    ∧ Job.attemptsMade job = 1 ∧ Job.maxAttempts job = 2
    ∧ Job.moveToFailed (new_Error "exit 1") (val 1) (val "") (val "")
        200 201 202 job s1 = (job', Ok s2)
    ∧ find_job 4 s2 = Some r'
    ∧ Row.status r' = PENDING
    ∧ Row.lock_token r' = None
    ∧ Row.attempts_made r' = 1
    ∧ Row.processed_on r' = Some 100
    ∧ Job.processedOn job' = undefined
    ∧ notifications s2 = [("new_job", "job")].
Proof.
  eexists _, _, _, _, _.
  split; [vm_compute; reflexivity |].
  split; [reflexivity |]. split; [reflexivity |]. split; [reflexivity |].
  split; [vm_compute; reflexivity |].
  split; [vm_compute; reflexivity |].
  repeat split.
Qed.

(** ** The remote executor *)







(** ** Dispatch *)

Lemma addLog_tables message now j s s' :
  Job.addLog message now j s = Ok s' →
  jobs s' = jobs s ∧ queues s' = queues s.
Proof.
  unfold Job.addLog. destruct (negb (truthy_number (Job.id j))).
  { intros [= <-]. auto. }
  change (from_relation (Quoted "job")) with (Ok tt : result unit).
  change (from_relation (Quoted "job_log")) with (Ok tt : result unit).
  unfold mbind, result_bind, Job.jobLog_create.
  destruct (negb (existsb _ (jobs s))); [discriminate |].
  destruct (existsb _ (job_logs s)); [discriminate |].
  unfold Job.cleanOldLogs. simpl truthy_number.
  destruct (negb (truthy_number (Job.id j)) || (Job.keepLogs j =? 0))%bool.
  { intros [= <-]. auto. }
  unfold Job.jobLog_findMany_skip. destruct (Job.keepLogs j <? 0); [discriminate |].
  simpl. destruct (0 <? _); intros [= <-]; auto.
Qed.

Lemma on_chunks_tables job chunks : ∀ s,
  jobs (foldl (RemoteExecutor.on_chunk job) s chunks) = jobs s
  ∧ queues (foldl (RemoteExecutor.on_chunk job) s chunks) = queues s.
Proof.
  induction chunks as [|c chunks IH]; intros s; [auto |]. simpl.
  destruct (IH (RemoteExecutor.on_chunk job s c)) as [-> ->].
  unfold RemoteExecutor.on_chunk.
  destruct c as [m t | m t];
    (destruct (Job.addLog _ t job s) as [s1 |] eqn:E;
     [apply addLog_tables in E; exact E | auto]).
Qed.

Lemma stored_tables j i s s' :
  jobs s' = jobs s → queues s' = queues s → stored j i s → stored j i s'.
Proof.
  unfold stored, find_job, queue_exists. intros -> ->. auto.
Qed.

(** C9. When the command of a stored job ends and the SSH layer reports
    no exit code ([code] is [null] or [undefined]), [executeJob] returns
    [exitCode = 0], and [processJob] records the job as COMPLETED, with
    [exit_code = 0], and emits [jobCompleted]. *)
Theorem absent_exit_code_completes (ssh : RemoteExecutor.Ssh)
    (timer_first : bool) (c : Worker.readings) (w : Worker.t) (job : Job.t)
    (i : Z) (s : Store) (response : RemoteExecutor.SSHExecCommandResponse) :
  stored job i s →
  truthy_number (Job.timeout job) = false ∨ timer_first = false →
  RemoteExecutor.settled
    (ssh (RemoteExecutor.commandWithEnv (Worker.remoteConfig w) job)
         (RemoteExecutor.cwd (Worker.remoteConfig w) job)) = Ok response →
  RemoteExecutor.code response = null ∨ RemoteExecutor.code response = undefined →
  (∃ result,
     (RemoteExecutor.executeJob ssh (Worker.remoteConfig w) (Worker.startTime c)
        (Worker.endTime c) job s).1 = Ok result
     ∧ RemoteExecutor.exitCode result = 0)
  ∧ ∃ job' s' r' before,
      Worker.processJob ssh timer_first c w job s
      = (job', s', before ++ [Worker.jobCompleted job'], None)
      ∧ Job.status job' = COMPLETED
      ∧ find_job i s' = Some r'
      ∧ Row.status r' = COMPLETED
      ∧ Row.exit_code r' = Some 0
      ∧ Row.lock_token r' = None
      ∧ Row.finished_on r' = Some (Worker.date1 c).
Proof.
  intros Hst Htimer Hsettled Hcode.
  assert (Hexit : nullish (RemoteExecutor.code response) 0 = 0)
    by (destruct Hcode as [-> | ->]; reflexivity).
  split.
  { unfold RemoteExecutor.executeJob. simpl. rewrite Hsettled. simpl.
    eexists. split; [reflexivity | exact Hexit]. }
  set (s1 := foldl (RemoteExecutor.on_chunk job) s
               (RemoteExecutor.chunks
                  (ssh (RemoteExecutor.commandWithEnv (Worker.remoteConfig w) job)
                       (RemoteExecutor.cwd (Worker.remoteConfig w) job)))).
  assert (Hexec : Worker.executeJob ssh timer_first (Worker.startTime c)
                    (Worker.endTime c) w job s
                  = (Ok (0, RemoteExecutor.r_stdout response,
                         RemoteExecutor.r_stderr response), s1)).
  { unfold Worker.executeJob, RemoteExecutor.executeJobWithTimeout,
      RemoteExecutor.executeJob.
    fold s1. rewrite Hsettled.
    destruct Htimer as [-> | ->]; [| destruct (truthy_number _)];
      simpl; rewrite Hexit; reflexivity. }
  assert (Hst1 : stored job i s1).
  { destruct (on_chunks_tables job
                (RemoteExecutor.chunks
                   (ssh (RemoteExecutor.commandWithEnv (Worker.remoteConfig w) job)
                        (RemoteExecutor.cwd (Worker.remoteConfig w) job))) s)
      as [Hj Hq].
    eapply stored_tables; [exact Hj | exact Hq | exact Hst]. }
  pose proof Hst1 as (Hid & Hi & _ & _).
  set (j1 := Job.set_stdErr (val (RemoteExecutor.r_stderr response))
               (Job.set_stdOut (val (RemoteExecutor.r_stdout response))
                  (Job.set_lockToken null
                     (Job.set_finishedOn (val (Worker.date1 c))
                        (Job.set_exitCode (val 0)
                           (Job.set_status COMPLETED job)))))).
  assert (Hst2 : stored j1 i s1) by exact Hst1.
  destruct (save_stored j1 i s1 (Worker.saved c) Hst2)
    as (r & s' & Hr & Hsave & Hr' & _).
  assert (Hmove : Job.moveToCompleted (val 0) (val (RemoteExecutor.r_stdout response))
                    (val (RemoteExecutor.r_stderr response)) (Worker.date1 c)
                    (Worker.saved c) job s1
                  = (Job.set_updatedAt (val (Worker.saved c)) j1, Ok s')).
  { unfold Job.moveToCompleted. enter_transition Hid i. save_as j1 Hsave.
    reflexivity. }
  exists (Job.set_updatedAt (val (Worker.saved c)) j1), s',
         (apply_update (Job.jobData j1) (Worker.saved c) r), [Worker.jobStarted job].
  split.
  - unfold Worker.processJob. rewrite Hexec. simpl negb. cbv iota.
    rewrite Hmove. reflexivity.
  - split; [reflexivity |]. split; [exact Hr' |]. repeat split.
Qed.

Lemma absent_exit_code_completes_witness :
  stored ex_job 1 ex_store
  ∧ ∃ job' s' r' before,
      Worker.processJob ex_ssh false ex_readings ex_worker ex_job ex_store
      = (job', s', before ++ [Worker.jobCompleted job'], None)
      ∧ Job.status job' = COMPLETED
      ∧ find_job 1 s' = Some r'
      ∧ Row.status r' = COMPLETED
      ∧ Row.exit_code r' = Some 0
      ∧ Row.lock_token r' = None
      ∧ Row.finished_on r' = Some 161.
Proof.
  assert (H : stored ex_job 1 ex_store)
    by (apply (bool_decide_unpack _); vm_compute; exact I).
  split; [exact H |].
  exact (proj2 (absent_exit_code_completes ex_ssh false ex_readings ex_worker
                  ex_job 1 ex_store _ H (or_intror eq_refl) eq_refl
                  (or_introl eq_refl))).
Defined.

(** * Further properties of the engine *)

(** ** Creation and saving *)



Lemma find_job_elem i s r : find_job i s = Some r → r ∈ jobs s ∧ Row.id r = i.
Proof.
  unfold find_job. intros E. apply find_some in E as [Hin Hid].
  unfold has_id in Hid. apply Z.eqb_eq in Hid. split; [by apply list_elem_of_In | exact Hid].
Qed.







(** ** Leases at the edges *)

Lemma with_jobs_same s : with_jobs s (jobs s) = s.
Proof. destruct s; reflexivity. Qed.

Lemma update_rows_none p f (l : list Row.t) :
  (∀ r, r ∈ l → p r = false) → update_rows p f l = l.
Proof.
  intros H. unfold update_rows. induction l as [|x l IH]; [reflexivity |].
  simpl. rewrite (H x) by apply list_elem_of_here.
  f_equal. apply IH. intros r Hr. apply H. by apply list_elem_of_further.
Qed.

Lemma lease_nothing_chosen q limit lockToken now l :
  Worker.next_job q limit l = [] →
  Worker.lease q limit lockToken now l = (l, []).
Proof.
  intros H. unfold Worker.lease. rewrite H. f_equal.
  - apply update_rows_none. intros r _. apply bool_decide_eq_false. apply not_elem_of_nil.
  - apply filter_none, Forall_forall. intros r _. apply not_elem_of_nil.
Qed.

(** X3. A lease that has nothing to take, because no job of the worker's
    queue is PENDING and unlocked or because [slotsToFill] is 0, returns
    the empty batch and leaves the store as it is. *)
Theorem lease_idle (w : Worker.t) (slotsToFill : Z) (lockToken : string)
    (now : Z) (s : Store) :
  slotsToFill = 0
  ∨ (0 ≤ slotsToFill
     ∧ filter (Worker.eligible (queue_id_of_name (Worker.queue_name w) s)) (jobs s)
       = []) →
  Worker.fetchAndLockNextJobs slotsToFill lockToken now w s = Ok ([], s).
Proof.
  intros H.
  assert (Hpos : 0 ≤ slotsToFill) by (destruct H as [-> | [? _]]; lia).
  rewrite fetchAndLockNextJobs_lease by exact Hpos. cbv zeta.
  rewrite lease_nothing_chosen; [simpl; by rewrite with_jobs_same |].
  unfold Worker.next_job. destruct H as [-> | [_ ->]]; [reflexivity |].
  change (merge_sort Worker.lease_le []) with (@nil Row.t). by rewrite take_nil.
Qed.

Lemma lease_idle_witness :
  Worker.fetchAndLockNextJobs 0 "tok" 100 ex_worker ex_store = Ok ([], ex_store).
Proof.
  apply (lease_idle ex_worker 0 "tok" 100 ex_store). left. reflexivity.
Defined.

(** X4. A lease with room for every eligible job of the queue returns them
    all, and leaves no job of the queue eligible. *)
Theorem lease_takes_all (w : Worker.t) (slotsToFill : Z) (lockToken : string)
    (now : Z) (s : Store) (batch : list Job.t) (s' : Store) :
  NoDup (Row.id <$> jobs s) →
  Worker.fetchAndLockNextJobs slotsToFill lockToken now w s = Ok (batch, s') →
  Z.of_nat (length (filter (Worker.eligible
                              (queue_id_of_name (Worker.queue_name w) s)) (jobs s)))
    ≤ slotsToFill →
  Job.id <$> batch
    ≡ₚ (fun r => val (Row.id r))
         <$> filter (Worker.eligible (queue_id_of_name (Worker.queue_name w) s))
               (jobs s)
  ∧ filter (Worker.eligible (queue_id_of_name (Worker.queue_name w) s)) (jobs s')
    = [].
Proof.
  intros Hnd H Hroom.
  assert (Hpos : 0 ≤ slotsToFill) by lia.
  rewrite fetchAndLockNextJobs_lease in H by exact Hpos. cbv zeta in H.
  injection H as <- <-.
  set (q := queue_id_of_name (Worker.queue_name w) s) in *.
  set (n := Z.to_nat slotsToFill).
  set (sorted := merge_sort Worker.lease_le (filter (Worker.eligible q) (jobs s))).
  assert (Hperm : sorted ≡ₚ filter (Worker.eligible q) (jobs s))
    by apply merge_sort_Permutation.
  assert (Hall : take n sorted = sorted)
    by (apply take_ge; rewrite Hperm; unfold n; lia).
  assert (Hnext : Worker.next_job q n (jobs s) = Row.id <$> sorted)
    by (unfold Worker.next_job; fold sorted; by rewrite Hall).
  split.
  - rewrite <- list_fmap_compose.
    change (Job.id ∘ Worker.job_of_row) with ((val : Z → js Z) ∘ Row.id).
    change (λ r : Row.t, val (Row.id r)) with ((val : Z → js Z) ∘ Row.id).
    rewrite !list_fmap_compose. f_equiv.
    unfold Worker.lease. simpl. rewrite Hnext, <- Hperm.
    apply fmap_filter_member.
    + rewrite update_rows_ids by reflexivity. exact Hnd.
    + rewrite Hperm. eapply sublist_NoDup; [exact Hnd | apply fmap_sublist, sublist_filter].
    + rewrite update_rows_ids by reflexivity. intros i Hi.
      apply list_elem_of_fmap in Hi as (r & -> & Hr).
      rewrite Hperm in Hr. apply list_elem_of_filter in Hr as [_ Hr].
      apply list_elem_of_fmap. eauto.
  - apply filter_none, Forall_forall. intros r' Hr'.
    unfold Worker.lease, update_rows in Hr'. simpl in Hr'.
    apply list_elem_of_fmap in Hr' as (r & -> & Hr).
    case_bool_decide as Hc.
    + intros (Hst & _). discriminate.
    + intros He. apply Hc. rewrite Hnext. apply list_elem_of_fmap.
      exists r. split; [reflexivity |]. rewrite Hperm.
      apply list_elem_of_filter. auto.
Qed.

Lemma lease_takes_all_witness :
  [val 1; val 2; val 4]
    ≡ₚ (fun r => val (Row.id r))
         <$> filter (Worker.eligible (queue_id_of_name "q" ex_store)) (jobs ex_store)
  ∧ ∃ s', Worker.fetchAndLockNextJobs 5 "tok" 100 ex_worker ex_store
          = Ok (Worker.job_of_row
                  <$> [Worker.leased "tok" 100 (ex_row 1 5 10 PENDING);
                       Worker.leased "tok" 100 (ex_row 2 1 20 PENDING);
                       Worker.leased "tok" 100 (ex_row 4 0 7 PENDING)], s')
      ∧ filter (Worker.eligible (queue_id_of_name "q" ex_store)) (jobs s') = [].
Proof.
  assert (Hnd : NoDup (Row.id <$> jobs ex_store))
    by (apply (bool_decide_unpack _); vm_compute; exact I).
  destruct (lease_takes_all ex_worker 5 "tok" 100 ex_store _ _ Hnd eq_refl) as [H1 H2].
  - vm_compute. discriminate.
  - split; [exact H1 |]. eexists. split; [reflexivity | exact H2].
Defined.

(** ** Transitions: completion, and a row that is gone *)

(** The row that [moveToCompleted] stores. *)
Lemma moveToCompleted_stored_row (j : Job.t) (i : Z) (s : Store)
    (exitCode : js Z) (stdOut stdErr : js string) (now tu : Z) :
  stored j i s →
  ∃ j' s' r r',
    find_job i s = Some r
    ∧ Job.moveToCompleted exitCode stdOut stdErr now tu j s = (j', Ok s')
    ∧ Job.status j' = COMPLETED
    ∧ find_job i s' = Some r'
    ∧ Row.status r' = COMPLETED
    ∧ Row.exit_code r' = completed_exit_code exitCode
    ∧ Row.finished_on r' = Some now
    ∧ Row.lock_token r' = None
    ∧ Row.std_out r' = set_nullable stdOut (Row.std_out r)
    ∧ Row.std_err r' = set_nullable stdErr (Row.std_err r)
    ∧ Row.attempts_made r' = Job.attemptsMade j
    ∧ Row.max_attempts r' = Job.maxAttempts j
    ∧ (∀ k, k ≠ i → find_job k s' = find_job k s)
    ∧ job_logs s' = job_logs s ∧ queues s' = queues s
    ∧ notifications s' = notifications s.
Proof.
  intros Hst. pose proof Hst as (Hid & Hi & _ & Hq).
  set (code := match exitCode with undefined => val 0 | given => given end).
  set (j1 := Job.set_stdErr stdErr
               (Job.set_stdOut stdOut
                  (Job.set_lockToken null
                     (Job.set_finishedOn (val now)
                        (Job.set_exitCode code (Job.set_status COMPLETED j)))))).
  assert (Hst1 : stored j1 i s) by exact Hst.
  destruct (save_stored j1 i s tu Hst1) as (r & s' & Hr & Hsave & Hr' & Hrest).
  exists (Job.set_updatedAt (val tu) j1), s', r, (apply_update (Job.jobData j1) tu r).
  split; [exact Hr |]. split.
  - unfold Job.moveToCompleted. enter_transition Hid i. save_as j1 Hsave.
    reflexivity.
  - split; [reflexivity |]. split; [exact Hr' |]. split; [reflexivity |].
    split; [destruct exitCode; reflexivity |].
    repeat (split; [reflexivity |]). exact Hrest.
Qed.

(** X5. [moveToCompleted] checks neither the status of the job nor who
    holds its lock: for every stored job it succeeds, sets
    [status = COMPLETED], [finished_on = now] and [lock_token = NULL],
    stores exit code 0 when none is passed, and leaves [std_out] and
    [std_err] as they are when no output is passed; no other row
    changes. *)
Theorem moveToCompleted_unconditional (j : Job.t) (i : Z) (s : Store)
    (exitCode : js Z) (stdOut stdErr : js string) (now tu : Z) :
  stored j i s →
  ∃ j' s' r r',
    find_job i s = Some r
    ∧ Job.moveToCompleted exitCode stdOut stdErr now tu j s = (j', Ok s')
    ∧ find_job i s' = Some r'
    ∧ Row.status r' = COMPLETED
    ∧ Row.finished_on r' = Some now
    ∧ Row.lock_token r' = None
    ∧ (exitCode = undefined → Row.exit_code r' = Some 0)
    ∧ (stdOut = undefined → Row.std_out r' = Row.std_out r)
    ∧ (stdErr = undefined → Row.std_err r' = Row.std_err r)
    ∧ (∀ k, k ≠ i → find_job k s' = find_job k s).
Proof.
  intros Hst.
  destruct (moveToCompleted_stored_row j i s exitCode stdOut stdErr now tu Hst)
    as (j' & s' & r & r' & Hr & Hm & _ & Hr' & Hs & He & Hf & Hl & Ho & Herr & _ & _ & Hk & _).
  exists j', s', r, r'. repeat split; auto.
  - intros ->. exact He.
  - intros ->. exact Ho.
  - intros ->. exact Herr.
Qed.

Lemma moveToCompleted_unconditional_witness :
  ∃ j' s' r r',
    find_job 5 ex_store = Some r
    ∧ Job.moveToCompleted undefined undefined undefined 50 51 ex_completed ex_store
      = (j', Ok s')
    ∧ find_job 5 s' = Some r'
    ∧ Row.status r' = COMPLETED
    ∧ Row.finished_on r' = Some 50
    ∧ Row.lock_token r' = None
    ∧ (@undefined Z = undefined → Row.exit_code r' = Some 0)
    ∧ (@undefined string = undefined → Row.std_out r' = Row.std_out r)
    ∧ (@undefined string = undefined → Row.std_err r' = Row.std_err r)
    ∧ (∀ k, k ≠ 5 → find_job k s' = find_job k ex_store).
Proof.
  apply (moveToCompleted_unconditional ex_completed 5 ex_store).
  apply (bool_decide_unpack _). vm_compute. exact I.
Defined.

(** [save] of an object whose row is gone. *)
Lemma save_missing (j : Job.t) (i : Z) (s : Store) (now : Z) :
  Job.id j = val i → i ≠ 0 → find_job i s = None →
  Job.save now j s = (j, Throw (Wrapped "Error saving job" RecordNotFound)).
Proof.
  intros Hid Hi Hnone. unfold Job.save. rewrite Hid. simpl.
  destruct (Z.eqb_spec i 0); [contradiction |]. simpl.
  unfold job_update. rewrite Hnone. reflexivity.
Qed.

(** X6. When the row of a job object is gone, [moveToRunning] throws and
    stores nothing, yet the object it was called on already says RUNNING,
    holds the lock token and counts one more attempt. *)
Theorem moveToRunning_missing_row (j : Job.t) (i : Z) (s : Store)
    (lockToken : string) (now tu : Z) :
  Job.id j = val i → i ≠ 0 → find_job i s = None →
  ∃ j',
    Job.moveToRunning lockToken now tu j s
    = (j', Throw (Wrapped "Error moving job to running"
                    (Wrapped "Error saving job" RecordNotFound)))
    ∧ Job.status j' = RUNNING
    ∧ Job.lockToken j' = val lockToken
    ∧ Job.attemptsMade j' = Job.attemptsMade j + 1.
Proof.
  intros Hid Hi Hnone.
  set (j1 := Job.set_attemptsMade (Job.attemptsMade j + 1)
               (Job.set_processedOn (val now)
                  (Job.set_lockToken (val lockToken) (Job.set_status RUNNING j)))).
  pose proof (save_missing j1 i s tu Hid Hi Hnone) as Hsave.
  exists j1. split; [| repeat split].
  unfold Job.moveToRunning. enter_transition Hid i. save_as j1 Hsave. reflexivity.
Qed.

Lemma moveToRunning_missing_row_witness :
  ∃ j',
    Job.moveToRunning "tok" 50 51 (Job.set_id (val 9) ex_job) ex_store
    = (j', Throw (Wrapped "Error moving job to running"
                    (Wrapped "Error saving job" RecordNotFound)))
    ∧ Job.status j' = RUNNING
    ∧ Job.lockToken j' = val "tok"
    ∧ Job.attemptsMade j' = Job.attemptsMade (Job.set_id (val 9) ex_job) + 1.
Proof.
  apply (moveToRunning_missing_row (Job.set_id (val 9) ex_job) 9 ex_store).
  - reflexivity.
  - lia.
  - reflexivity.
Defined.

(** ** Dispatch: every way a job can end *)

Lemma worker_executeJob_store ssh timer_first startTime endTime w job s :
  (Worker.executeJob ssh timer_first startTime endTime w job s).2
  = foldl (RemoteExecutor.on_chunk job) s
      (RemoteExecutor.chunks
         (ssh (RemoteExecutor.commandWithEnv (Worker.remoteConfig w) job)
              (RemoteExecutor.cwd (Worker.remoteConfig w) job))).
Proof.
  unfold Worker.executeJob, RemoteExecutor.executeJobWithTimeout,
    RemoteExecutor.executeJob.
  destruct (truthy_number (Job.timeout job)); [destruct timer_first |]; reflexivity.
Qed.

Lemma worker_executeJob_stored ssh timer_first startTime endTime w job i s :
  stored job i s →
  stored job i (Worker.executeJob ssh timer_first startTime endTime w job s).2.
Proof.
  intros Hst. rewrite worker_executeJob_store.
  destruct (on_chunks_tables job
              (RemoteExecutor.chunks
                 (ssh (RemoteExecutor.commandWithEnv (Worker.remoteConfig w) job)
                      (RemoteExecutor.cwd (Worker.remoteConfig w) job))) s)
    as [Hj Hq].
  eapply stored_tables; [exact Hj | exact Hq | exact Hst].
Qed.


Lemma processJob_unfold ssh timer_first c w job s :
  Worker.processJob ssh timer_first c w job s
  = let p := Worker.executeJob ssh timer_first (Worker.startTime c)
               (Worker.endTime c) w job s in
    match p.1 with
    | Throw e => Worker.processJob_catch c [Worker.jobStarted job] e job p.2
    | Ok (exitCode, stdout, stderr) =>
        if negb (exitCode =? 0) then
          let error := new_Error ("Job failed with exit code " +:+ pretty exitCode) in
          let q := Job.moveToFailed error (val exitCode) (val stdout) (val stderr)
                     (Worker.date1 c) (Worker.date2 c) (Worker.saved c) job p.2 in
          match q.2 with
          | Ok s' => (q.1, s', [Worker.jobStarted job; Worker.jobFailed q.1 error], None)
          | Throw e => Worker.processJob_catch c [Worker.jobStarted job] e q.1 p.2
          end
        else
          let q := Job.moveToCompleted (val exitCode) (val stdout) (val stderr)
                     (Worker.date1 c) (Worker.saved c) job p.2 in
          match q.2 with
          | Ok s' => (q.1, s', [Worker.jobStarted job; Worker.jobCompleted q.1], None)
          | Throw e => Worker.processJob_catch c [Worker.jobStarted job] e q.1 p.2
          end
    end.
Proof.
  unfold Worker.processJob.
  destruct (Worker.executeJob _ _ _ _ _ _ _) as [[[[exitCode out] err] | e] s1];
    simpl; [| reflexivity].
  destruct (exitCode =? 0); simpl.
  - destruct (Job.moveToCompleted _ _ _ _ _ _ _) as [j' [s' | e]]; reflexivity.
  - destruct (Job.moveToFailed _ _ _ _ _ _ _ _ _) as [j' [s' | e]]; reflexivity.
Qed.

(** [moveToFailed] writes the limit of the job object. *)
Lemma moveToFailed_limits (j : Job.t) (i : Z) (s : Store) (error : JsError)
    (exitCode : js Z) (stdOut stdErr : js string) (tp tf tu : Z) :
  stored j i s →
  ∀ j' s' r',
    Job.moveToFailed error exitCode stdOut stdErr tp tf tu j s = (j', Ok s') →
    find_job i s' = Some r' →
    Row.max_attempts r' = Job.maxAttempts j.
Proof.
  intros Hst j' s' r'. pose proof Hst as (Hid & Hi & _ & _).
  unfold Job.moveToFailed. enter_transition Hid i.
  destruct (Job.shouldRetry _);
    match goal with
    | |- context [Job.save _ ?x _] =>
        destruct (save_stored x i s tu Hst)
          as (r0 & s0 & Hr0 & Hsave & Hr0' & _); rewrite Hsave
    end;
    intros [= <- <-]; simpl;
    [unfold find_job, Job.notifyNewJob, with_notification in *; simpl |];
    rewrite Hr0'; intros [= <-]; reflexivity.
Qed.

(** The [catch] clause on a stored job. *)
Lemma processJob_catch_stored c ev e job i s :
  stored job i s →
  ∃ job' s' r r',
    Worker.processJob_catch c ev e job s
    = (job', s', ev ++ [Worker.jobFailed job' (caught e)], None)
    ∧ find_job i s = Some r
    ∧ find_job i s' = Some r'
    ∧ Row.lock_token r' = None
    ∧ Row.attempts_made r' = Job.attemptsMade job
    ∧ Row.max_attempts r' = Job.maxAttempts job
    ∧ Row.exit_code r' = Row.exit_code r
    ∧ if Job.attemptsMade job <? Job.maxAttempts job then
        Row.status r' = PENDING
        ∧ notifications s' = notifications s ++ [("new_job", Job.name job)]
      else
        Row.status r' = FAILED
        ∧ Row.finished_on r' = Some (Worker.catch_date2 c)
        ∧ Row.failed_reason r'
          = Some (nullish (message (caught e)) (toString (caught e)))
        ∧ notifications s' = notifications s.
Proof.
  intros Hst.
  destruct (moveToFailed_stored_row job i s (caught e) undefined undefined undefined
              (Worker.catch_date1 c) (Worker.catch_date2 c) (Worker.catch_saved c) Hst)
    as (j' & s' & r & r' & Hr & Hm & Hr' & Hl & Ha & He & Hb).
  pose proof (moveToFailed_limits _ _ _ _ _ _ _ _ _ _ Hst _ _ _ Hm Hr') as Hx.
  exists j', s', r, r'. unfold Worker.processJob_catch. rewrite Hm.
  split; [reflexivity |]. split; [exact Hr |]. split; [exact Hr' |].
  split; [exact Hl |]. split; [exact Ha |]. split; [exact Hx |].
  split; [exact He |].
  destruct (Job.attemptsMade job <? Job.maxAttempts job); tauto.
Qed.

(** The row of a stored job after its dispatch. *)
Lemma processJob_outcome (ssh : RemoteExecutor.Ssh) (timer_first : bool)
    (c : Worker.readings) (w : Worker.t) (job : Job.t) (i : Z) (s : Store) :
  stored job i s →
  ∃ job' s' r' last,
    Worker.processJob ssh timer_first c w job s
    = (job', s', [Worker.jobStarted job; last], None)
    ∧ find_job i s' = Some r'
    ∧ Row.lock_token r' = None
    ∧ Row.attempts_made r' = Job.attemptsMade job
    ∧ Row.max_attempts r' = Job.maxAttempts job
    ∧ (((∃ out err,
           (Worker.executeJob ssh timer_first (Worker.startTime c)
              (Worker.endTime c) w job s).1 = Ok (0, out, err))
        ∧ Row.status r' = COMPLETED ∧ last = Worker.jobCompleted job')
       ∨ ((¬ ∃ out err,
             (Worker.executeJob ssh timer_first (Worker.startTime c)
                (Worker.endTime c) w job s).1 = Ok (0, out, err))
          ∧ Row.status r'
            = (if Job.attemptsMade job <? Job.maxAttempts job
               then PENDING else FAILED)
          ∧ ∃ error, last = Worker.jobFailed job' error)).
Proof.
  intros Hst. rewrite processJob_unfold. cbv zeta.
  pose proof (worker_executeJob_stored ssh timer_first (Worker.startTime c)
                (Worker.endTime c) w job i s Hst) as Hst1.
  destruct (Worker.executeJob _ _ _ _ _ _ _) as [[[[exitCode out] err] | e] s1];
    simpl in *.
  - destruct (Z.eqb_spec exitCode 0) as [-> | Hne]; simpl.
    + destruct (moveToCompleted_stored_row job i s1 (val 0) (val out) (val err)
                  (Worker.date1 c) (Worker.saved c) Hst1)
        as (j' & s' & r & r' & _ & Hm & _ & Hr' & Hs & _ & _ & Hl & _ & _ & Ha & Hx & _).
      rewrite Hm. simpl. exists j', s', r', (Worker.jobCompleted j').
      split; [reflexivity |]. split; [exact Hr' |]. split; [exact Hl |].
      split; [exact Ha |]. split; [exact Hx |]. left. eauto.
    + destruct (moveToFailed_stored_row job i s1
                  (new_Error ("Job failed with exit code " +:+ pretty exitCode))
                  (val exitCode) (val out) (val err)
                  (Worker.date1 c) (Worker.date2 c) (Worker.saved c) Hst1)
        as (j' & s' & r & r' & _ & Hm & Hr' & Hl & Ha & _ & Hb).
      pose proof (moveToFailed_limits _ _ _ _ _ _ _ _ _ _ Hst1 _ _ _ Hm Hr') as Hx.
      rewrite Hm. simpl. eexists j', s', r', _.
      split; [reflexivity |]. split; [exact Hr' |]. split; [exact Hl |].
      split; [exact Ha |]. split; [exact Hx |]. right.
      split; [intros (o & e' & [= -> _ _]); contradiction |].
      split; [| eauto].
      destruct (Job.attemptsMade job <? Job.maxAttempts job); tauto.
  - destruct (processJob_catch_stored c [Worker.jobStarted job] e job i s1 Hst1)
      as (j' & s' & r & r' & Hc & _ & Hr' & Hl & Ha & Hx & _ & Hb).
    rewrite Hc. eexists j', s', r', _.
    split; [reflexivity |]. split; [exact Hr' |]. split; [exact Hl |].
    split; [exact Ha |]. split; [exact Hx |]. right.
    split; [intros (o & e' & [=]) |]. split; [| eauto].
    destruct (Job.attemptsMade job <? Job.maxAttempts job); tauto.
Qed.

(** X7. Every dispatch of a stored job settles it: [processJob] does not
    reject, emits [jobStarted] and then one of [jobCompleted] and
    [jobFailed], and leaves the row unlocked; the row is COMPLETED exactly
    when the worker obtained exit code 0, otherwise it is PENDING again or
    FAILED; [attempts_made] is the one of the job object. *)
Theorem processJob_settles (ssh : RemoteExecutor.Ssh) (timer_first : bool)
    (c : Worker.readings) (w : Worker.t) (job : Job.t) (i : Z) (s : Store) :
  stored job i s →
  ∃ job' s' r' last,
    Worker.processJob ssh timer_first c w job s
    = (job', s', [Worker.jobStarted job; last], None)
    ∧ find_job i s' = Some r'
    ∧ Row.lock_token r' = None
    ∧ Row.attempts_made r' = Job.attemptsMade job
    ∧ (((∃ out err,
           (Worker.executeJob ssh timer_first (Worker.startTime c)
              (Worker.endTime c) w job s).1 = Ok (0, out, err))
        ∧ Row.status r' = COMPLETED ∧ last = Worker.jobCompleted job')
       ∨ ((¬ ∃ out err,
             (Worker.executeJob ssh timer_first (Worker.startTime c)
                (Worker.endTime c) w job s).1 = Ok (0, out, err))
          ∧ Row.status r'
            = (if Job.attemptsMade job <? Job.maxAttempts job
               then PENDING else FAILED)
          ∧ ∃ error, last = Worker.jobFailed job' error)).
Proof.
  intros Hst.
  destruct (processJob_outcome ssh timer_first c w job i s Hst)
    as (job' & s' & r' & last & Hp & Hr' & Hl & Ha & _ & Hcase).
  exists job', s', r', last. auto.
Qed.

Lemma processJob_settles_witness :
  ∃ job' s' r' last,
    Worker.processJob ex_ssh false ex_readings ex_worker ex_job ex_store
    = (job', s', [Worker.jobStarted ex_job; last], None)
    ∧ find_job 1 s' = Some r'
    ∧ Row.lock_token r' = None
    ∧ Row.attempts_made r' = Job.attemptsMade ex_job
    ∧ (((∃ out err,
           (Worker.executeJob ex_ssh false 140 160 ex_worker ex_job ex_store).1
           = Ok (0, out, err))
        ∧ Row.status r' = COMPLETED ∧ last = Worker.jobCompleted job')
       ∨ ((¬ ∃ out err,
             (Worker.executeJob ex_ssh false 140 160 ex_worker ex_job ex_store).1
             = Ok (0, out, err))
          ∧ Row.status r'
            = (if Job.attemptsMade ex_job <? Job.maxAttempts ex_job
               then PENDING else FAILED)
          ∧ ∃ error, last = Worker.jobFailed job' error)).
Proof.
  apply (processJob_settles ex_ssh false ex_readings ex_worker ex_job 1 ex_store).
  apply (bool_decide_unpack _). vm_compute. exact I.
Defined.

(** X8. A dispatch that obtains a non-zero exit code stores that exit code
    and the outputs in the row, in either branch: when the job object has
    attempts left the row is PENDING again and a [new_job] notification is
    published; otherwise it is FAILED with [finished_on] set and the
    reason [Job failed with exit code N]. *)
Theorem processJob_exit_code (ssh : RemoteExecutor.Ssh) (timer_first : bool)
    (c : Worker.readings) (w : Worker.t) (job : Job.t) (i : Z) (s : Store)
    (exitCode : Z) (out err : string) :
  stored job i s →
  (Worker.executeJob ssh timer_first (Worker.startTime c) (Worker.endTime c)
     w job s).1 = Ok (exitCode, out, err) →
  exitCode ≠ 0 →
  ∃ job' s' r',
    Worker.processJob ssh timer_first c w job s
    = (job', s',
       [Worker.jobStarted job;
        Worker.jobFailed job'
          (new_Error ("Job failed with exit code " +:+ pretty exitCode))], None)
    ∧ find_job i s' = Some r'
    ∧ Row.exit_code r' = Some exitCode
    ∧ Row.std_out r' = Some out ∧ Row.std_err r' = Some err
    ∧ if Job.attemptsMade job <? Job.maxAttempts job then
        Row.status r' = PENDING
        ∧ last (notifications s') = Some ("new_job", Job.name job)
      else
        Row.status r' = FAILED
        ∧ Row.finished_on r' = Some (Worker.date2 c)
        ∧ Row.failed_reason r'
          = Some ("Job failed with exit code " +:+ pretty exitCode).
Proof.
  intros Hst Hres Hne. rewrite processJob_unfold. cbv zeta.
  pose proof (worker_executeJob_stored ssh timer_first (Worker.startTime c)
                (Worker.endTime c) w job i s Hst) as Hst1.
  rewrite Hres. destruct (Z.eqb_spec exitCode 0); [contradiction |]. simpl negb.
  cbv iota.
  set (s1 := (Worker.executeJob ssh timer_first (Worker.startTime c)
                (Worker.endTime c) w job s).2) in *.
  set (error := new_Error ("Job failed with exit code " +:+ pretty exitCode)).
  destruct (moveToFailed_stored_row job i s1 error (val exitCode) (val out)
              (val err) (Worker.date1 c) (Worker.date2 c) (Worker.saved c) Hst1)
    as (j' & s' & r & r' & Hr & Hm & Hr' & _ & _ & He & Hb).
  pose proof Hst1 as (Hid & Hi & _ & Hq).
  (* the outputs are written in both branches *)
  assert (Hout : Row.std_out r' = Some out ∧ Row.std_err r' = Some err).
  { revert Hm Hr'. unfold Job.moveToFailed. enter_transition Hid i.
    destruct (Job.shouldRetry _);
      match goal with
      | |- context [Job.save _ ?x _] =>
          destruct (save_stored x i s1 (Worker.saved c) Hst1)
            as (r0 & s0 & Hr0 & Hsave & Hr0' & _); rewrite Hsave
      end;
      intros [= <- <-]; simpl;
      [unfold find_job, Job.notifyNewJob, with_notification in *; simpl |];
      rewrite Hr0'; intros [= <-]; split; reflexivity. }
  rewrite Hm. simpl. exists j', s', r'.
  split; [reflexivity |]. split; [exact Hr' |]. split; [exact He |].
  split; [tauto |]. split; [tauto |].
  destruct (Job.attemptsMade job <? Job.maxAttempts job).
  - destruct Hb as (Hs & _ & _ & _ & _ & Hn). split; [exact Hs |].
    rewrite Hn. apply last_snoc.
  - destruct Hb as (Hs & _ & Hf & Hreason & _). auto.
Qed.

Lemma processJob_exit_code_witness :
  ∃ job' s' r',
    Worker.processJob ex_ssh_exit2 false ex_readings ex_worker ex_job ex_store
    = (job', s',
       [Worker.jobStarted ex_job;
        Worker.jobFailed job' (new_Error ("Job failed with exit code " +:+ pretty 2))],
       None)
    ∧ find_job 1 s' = Some r'
    ∧ Row.exit_code r' = Some 2
    ∧ Row.std_out r' = Some "" ∧ Row.std_err r' = Some "no such file"
    ∧ if Job.attemptsMade ex_job <? Job.maxAttempts ex_job then
        Row.status r' = PENDING
        ∧ last (notifications s') = Some ("new_job", Job.name ex_job)
      else
        Row.status r' = FAILED
        ∧ Row.finished_on r' = Some 162
        ∧ Row.failed_reason r'
          = Some ("Job failed with exit code " +:+ pretty 2).
Proof.
  apply (processJob_exit_code ex_ssh_exit2 false ex_readings ex_worker ex_job 1
           ex_store 2 "" "no such file").
  - apply (bool_decide_unpack _). vm_compute. exact I.
  - reflexivity.
  - lia.
Defined.



(** *** A job whose row is gone *)







(** ** A lease followed by the dispatch *)

Lemma find_job_in (l : list Row.t) r :
  r ∈ l → is_Some (List.find (has_id (Row.id r)) l).
Proof.
  induction l as [|x l IH]; intros H; [inversion H |].
  simpl. destruct (has_id (Row.id r) x) eqn:E; [eauto |].
  apply IH. apply elem_of_cons in H as [-> | H]; [| exact H].
  unfold has_id in E. rewrite Z.eqb_refl in E. discriminate.
Qed.

Lemma queue_id_of_name_exists n s q :
  queue_id_of_name n s = Some q → queue_exists q s = true.
Proof.
  unfold queue_id_of_name, queue_exists. intros H.
  destruct (List.find _ _) as [x |] eqn:E; [| discriminate].
  injection H as <-. apply find_some in E as [Hin _].
  apply existsb_exists. exists x. split; [exact Hin | apply Z.eqb_refl].
Qed.

(** A job of a lease batch is stored, and mirrors its leased row. *)
Lemma leased_job_stored (w : Worker.t) (slotsToFill : Z) (lockToken : string)
    (now : Z) (s : Store) (batch : list Job.t) (s1 : Store) (job : Job.t) :
  NoDup (Row.id <$> jobs s) →
  (∀ r, r ∈ jobs s → Row.id r ≠ 0) →
  Worker.fetchAndLockNextJobs slotsToFill lockToken now w s = Ok (batch, s1) →
  job ∈ batch →
  ∃ r, r ∈ jobs s
    ∧ Worker.eligible (queue_id_of_name (Worker.queue_name w) s) r
    ∧ job = Worker.job_of_row (Worker.leased lockToken now r)
    ∧ stored job (Row.id r) s1.
Proof.
  intros Hnd Hnz H Hjob.
  destruct (Z.lt_ge_cases slotsToFill 0) as [Hneg | Hpos].
  { rewrite fetchAndLockNextJobs_negative in H by done. discriminate. }
  rewrite fetchAndLockNextJobs_lease in H by done. cbv zeta in H.
  injection H as <- <-.
  apply list_elem_of_fmap in Hjob as (r' & -> & Hr').
  pose proof Hr' as Hin. apply list_elem_of_filter in Hin as [_ Hin].
  apply lease_returning in Hr' as (r & Hr & He & ->); [| exact Hnd].
  exists r. split; [exact Hr |]. split; [exact He |]. split; [reflexivity |].
  split; [reflexivity |]. split; [exact (Hnz r Hr) |]. split.
  - apply (find_job_in _ _ Hin).
  - destruct He as (_ & Hq & _). simpl.
    apply (queue_id_of_name_exists (Worker.queue_name w)). simpl. by rewrite <- Hq.
Qed.

(** X11. Attempt accounting over a lease and the dispatch of a job it
    returned: the dispatch does not reject and leaves the row unlocked with
    [attempts_made] one higher than before the lease and [max_attempts] as
    before; the row ends COMPLETED, PENDING or FAILED, PENDING only when
    the attempts made are still below [max_attempts], and FAILED only when
    they have reached it. *)
Theorem lease_dispatch_accounting (ssh : RemoteExecutor.Ssh) (timer_first : bool)
    (c : Worker.readings) (w : Worker.t) (slotsToFill : Z) (lockToken : string)
    (now : Z) (s : Store) (batch : list Job.t) (s1 : Store) (job : Job.t) :
  NoDup (Row.id <$> jobs s) →
  (∀ r, r ∈ jobs s → Row.id r ≠ 0) →
  Worker.fetchAndLockNextJobs slotsToFill lockToken now w s = Ok (batch, s1) →
  job ∈ batch →
  ∃ r job' s2 r' last,
    r ∈ jobs s ∧ Job.id job = val (Row.id r)
    ∧ Worker.processJob ssh timer_first c w job s1
      = (job', s2, [Worker.jobStarted job; last], None)
    ∧ find_job (Row.id r) s2 = Some r'
    ∧ Row.attempts_made r' = Row.attempts_made r + 1
    ∧ Row.max_attempts r' = Row.max_attempts r
    ∧ Row.lock_token r' = None
    ∧ (Row.status r' = COMPLETED ∨ Row.status r' = PENDING ∨ Row.status r' = FAILED)
    ∧ (Row.status r' = PENDING → Row.attempts_made r + 1 < Row.max_attempts r)
    ∧ (Row.status r' = FAILED → Row.max_attempts r ≤ Row.attempts_made r + 1).
Proof.
  intros Hnd Hnz H Hjob.
  destruct (leased_job_stored w slotsToFill lockToken now s batch s1 job Hnd Hnz H Hjob)
    as (r & Hr & _ & -> & Hst).
  destruct (processJob_outcome ssh timer_first c w _ _ s1 Hst)
    as (job' & s2 & r' & last & Hp & Hr' & Hl & Ha & Hx & Hcase).
  exists r, job', s2, r', last. simpl in Ha, Hx, Hcase.
  split; [exact Hr |]. split; [reflexivity |]. split; [exact Hp |].
  split; [exact Hr' |]. split; [exact Ha |]. split; [exact Hx |].
  split; [exact Hl |].
  destruct Hcase as [(_ & Hs & _) | (_ & Hs & _)]; rewrite Hs.
  - split; [by left |]. split; discriminate.
  - destruct (Z.ltb_spec (Row.attempts_made r + 1) (Row.max_attempts r)).
    + split; [right; by left |]. split; [done | discriminate].
    + split; [right; by right |]. split; [discriminate | done].
Qed.

Lemma lease_dispatch_accounting_witness :
  ∃ r job' s2 r' last,
    r ∈ jobs ex_store ∧ Job.id ex_leased_job = val (Row.id r)
    ∧ Worker.processJob ex_ssh_exit2 false ex_readings ex_worker ex_leased_job
        ex_leased.2
      = (job', s2, [Worker.jobStarted ex_leased_job; last], None)
    ∧ find_job (Row.id r) s2 = Some r'
    ∧ Row.attempts_made r' = Row.attempts_made r + 1
    ∧ Row.max_attempts r' = Row.max_attempts r
    ∧ Row.lock_token r' = None
    ∧ (Row.status r' = COMPLETED ∨ Row.status r' = PENDING ∨ Row.status r' = FAILED)
    ∧ (Row.status r' = PENDING → Row.attempts_made r + 1 < Row.max_attempts r)
    ∧ (Row.status r' = FAILED → Row.max_attempts r ≤ Row.attempts_made r + 1).
Proof.
  apply (lease_dispatch_accounting ex_ssh_exit2 false ex_readings ex_worker 2
           "tok" 100 ex_store ex_leased.1 ex_leased.2 ex_leased_job).
  - apply (bool_decide_unpack _). vm_compute. exact I.
  - apply Forall_forall. repeat constructor; simpl; lia.
  - reflexivity.
  - apply list_elem_of_here.
Defined.

(** ** A retry by hand *)

Lemma retry_jobs jobId tu s s1 :
  Job.retry jobId tu s = Ok s1 →
  Row.id <$> jobs s1 = Row.id <$> jobs s.
Proof.
  unfold Job.retry, job_update. destruct (find_job jobId s); [| discriminate].
  simpl. intros [= <-]. simpl. apply update_rows_ids, apply_update_id.
Qed.

(** X12. A retry by hand grants one attempt.  [Job.retry] of a job that has
    used up its attempts makes it eligible for a lease of its queue again,
    but keeps [attempts_made]: the dispatch after the next lease of the job
    leaves it COMPLETED or FAILED, never PENDING for another automatic
    attempt. *)
Theorem manual_retry_one_attempt (ssh : RemoteExecutor.Ssh) (timer_first : bool)
    (c : Worker.readings) (w : Worker.t) (slotsToFill : Z) (lockToken : string)
    (now tu : Z) (s : Store) (jobId : Z) (r : Row.t) :
  NoDup (Row.id <$> jobs s) →
  (∀ r, r ∈ jobs s → Row.id r ≠ 0) →
  find_job jobId s = Some r →
  Row.max_attempts r ≤ Row.attempts_made r →
  ∃ s1, Job.retry jobId tu s = Ok s1
    ∧ (∃ r1, find_job jobId s1 = Some r1
         ∧ Worker.eligible (Some (Row.queue_id r)) r1
         ∧ Row.attempts_made r1 = Row.attempts_made r)
    ∧ ∀ batch s2 job,
        Worker.fetchAndLockNextJobs slotsToFill lockToken now w s1
        = Ok (batch, s2) →
        job ∈ batch → Job.id job = val jobId →
        ∃ job' s3 r3 last,
          Worker.processJob ssh timer_first c w job s2
          = (job', s3, [Worker.jobStarted job; last], None)
          ∧ find_job jobId s3 = Some r3
          ∧ Row.attempts_made r3 = Row.attempts_made r + 1
          ∧ (Row.status r3 = COMPLETED ∨ Row.status r3 = FAILED).
Proof.
  intros Hnd Hnz Hr Hmax.
  destruct (job_update_found jobId Job.retry_data tu s r Hr eq_refl)
    as (s1 & Hok & Hr1 & _).
  assert (Hretry : Job.retry jobId tu s = Ok s1)
    by (unfold Job.retry; rewrite Hok; reflexivity).
  rewrite apply_retry_data in Hr1.
  exists s1. split; [exact Hretry |]. split.
  { exists (retry_effect tu r). split; [exact Hr1 |]. split; [| reflexivity].
    repeat split. }
  intros batch s2 job Hfetch Hjob Hid.
  pose proof (retry_jobs _ _ _ _ Hretry) as Hids.
  assert (Hnd1 : NoDup (Row.id <$> jobs s1)) by (rewrite Hids; exact Hnd).
  assert (Hnz1 : ∀ x, x ∈ jobs s1 → Row.id x ≠ 0).
  { intros x Hx.
    assert (Hin : Row.id x ∈ Row.id <$> jobs s) by
      (rewrite <- Hids; apply list_elem_of_fmap; eauto).
    apply list_elem_of_fmap in Hin as (y & -> & Hy). exact (Hnz y Hy). }
  destruct (leased_job_stored w slotsToFill lockToken now s1 batch s2 job
              Hnd1 Hnz1 Hfetch Hjob) as (r0 & Hr0 & _ & -> & Hst).
  injection Hid as Hid0.
  apply find_job_elem in Hr1 as [Hin1 Hid1].
  assert (r0 = retry_effect tu r) as ->
    by (apply (same_id_same_row (jobs s1)); [exact Hnd1 | exact Hr0 | exact Hin1 | congruence]).
  destruct (processJob_outcome ssh timer_first c w _ _ s2 Hst)
    as (job' & s3 & r3 & last & Hp & Hr3 & _ & Ha & _ & Hcase).
  simpl in Hid0, Hr3, Ha, Hcase. rewrite Hid0 in Hr3.
  exists job', s3, r3, last. split; [exact Hp |]. split; [exact Hr3 |].
  split; [exact Ha |].
  destruct Hcase as [(_ & Hs & _) | (_ & Hs & _)]; [by left |].
  right. rewrite Hs.
  destruct (Z.ltb_spec (Row.attempts_made r + 1) (Row.max_attempts r)); [lia | reflexivity].
Qed.

Lemma manual_retry_one_attempt_witness :
  ∃ s1, Job.retry 7 95 ex_failed_store = Ok s1
    ∧ (∃ r1, find_job 7 s1 = Some r1
         ∧ Worker.eligible (Some (Row.queue_id ex_exhausted)) r1
         ∧ Row.attempts_made r1 = Row.attempts_made ex_exhausted)
    ∧ ∀ batch s2 job,
        Worker.fetchAndLockNextJobs 2 "tok" 100 ex_worker s1 = Ok (batch, s2) →
        job ∈ batch → Job.id job = val 7 →
        ∃ job' s3 r3 last,
          Worker.processJob ex_ssh_exit2 false ex_readings ex_worker job s2
          = (job', s3, [Worker.jobStarted job; last], None)
          ∧ find_job 7 s3 = Some r3
          ∧ Row.attempts_made r3 = Row.attempts_made ex_exhausted + 1
          ∧ (Row.status r3 = COMPLETED ∨ Row.status r3 = FAILED).
Proof.
  apply (manual_retry_one_attempt ex_ssh_exit2 false ex_readings ex_worker 2
           "tok" 100 95 ex_failed_store 7 ex_exhausted).
  - apply (bool_decide_unpack _). vm_compute. exact I.
  - apply Forall_forall. repeat constructor; simpl; lia.
  - reflexivity.
  - simpl. lia.
Defined.

(** ** Statistics of a queue *)

Lemma add_item_comm acc x y :
  x.1 ≠ y.1 →
  Queue.add_item (Queue.add_item acc x) y = Queue.add_item (Queue.add_item acc y) x.
Proof.
  destruct x as [sx nx], y as [sy ny]. simpl. intros Hne.
  destruct sx, sy; try contradiction; unfold Queue.add_item; simpl;
    f_equal; lia.
Qed.

Lemma foldl_add_item_perm (l l' : list (JobStatus * Z)) :
  l ≡ₚ l' → NoDup (fst <$> l) →
  ∀ acc, foldl Queue.add_item acc l = foldl Queue.add_item acc l'.
Proof.
  induction 1 as [| x l l' Hp IH | x y l | l l' l'' Hp IH Hp' IH']; intros Hnd acc.
  - reflexivity.
  - simpl. apply IH. by apply NoDup_cons in Hnd as [_ ?].
  - simpl. rewrite add_item_comm; [reflexivity |].
    simpl in Hnd. apply NoDup_cons in Hnd as [Hy _].
    intros Heq. apply Hy. rewrite Heq. apply list_elem_of_here.
  - rewrite IH by exact Hnd. apply IH'. by rewrite <- Hp.
Qed.

Lemma groupBy_status_NoDup queueId s :
  NoDup (fst <$> Queue.groupBy_status queueId s).
Proof.
  unfold Queue.groupBy_status.
  eapply sublist_NoDup; [| apply fmap_sublist, sublist_filter].
  simpl. apply (bool_decide_unpack _). vm_compute. exact I.
Qed.

Lemma count_status_countByQueue queueId st s :
  Queue.count_status queueId st s = Job.countByQueue queueId (Some st) s.
Proof. reflexivity. Qed.

Lemma length_filter_cons {A} (P : A → Prop) `{∀ x, Decision (P x)} r l :
  Z.of_nat (length (filter P (r :: l)))
  = (if decide (P r) then 1 else 0) + Z.of_nat (length (filter P l)).
Proof. rewrite filter_cons. destruct (decide (P r)); simpl length; lia. Qed.

Lemma countByQueue_split queueId s :
  Job.countByQueue queueId None s
  = Job.countByQueue queueId (Some PENDING) s
    + Job.countByQueue queueId (Some RUNNING) s
    + Job.countByQueue queueId (Some COMPLETED) s
    + Job.countByQueue queueId (Some FAILED) s
    + Job.countByQueue queueId (Some STALLED) s
    + Job.countByQueue queueId (Some CANCELLED) s.
Proof.
  unfold Job.countByQueue. induction (jobs s) as [|r l IH]; [reflexivity |].
  rewrite !length_filter_cons, IH.
  assert ((if decide (Job.in_queue queueId None r) then 1 else 0)
          = (if decide (Job.in_queue queueId (Some PENDING) r) then 1 else 0)
            + (if decide (Job.in_queue queueId (Some RUNNING) r) then 1 else 0)
            + (if decide (Job.in_queue queueId (Some COMPLETED) r) then 1 else 0)
            + (if decide (Job.in_queue queueId (Some FAILED) r) then 1 else 0)
            + (if decide (Job.in_queue queueId (Some STALLED) r) then 1 else 0)
            + (if decide (Job.in_queue queueId (Some CANCELLED) r) then 1 else 0));
    [| lia].
  repeat case_decide; unfold Job.in_queue in *;
    first [lia | exfalso; destruct (Row.status r); intuition congruence].
Qed.

Lemma tally_groupBy queueId s :
  let stats := Queue.getStats queueId s in
  Queue.totalJobs stats
  = Queue.count_status queueId PENDING s + Queue.count_status queueId RUNNING s
    + Queue.count_status queueId COMPLETED s + Queue.count_status queueId FAILED s
    + Queue.count_status queueId STALLED s + Queue.count_status queueId CANCELLED s
  ∧ Queue.pendingJobs stats = Queue.count_status queueId PENDING s
  ∧ Queue.runningJobs stats = Queue.count_status queueId RUNNING s
  ∧ Queue.completedJobs stats = Queue.count_status queueId COMPLETED s
  ∧ Queue.failedJobs stats = Queue.count_status queueId FAILED s
  ∧ Queue.stalledJobs stats = Queue.count_status queueId STALLED s.
Proof.
  unfold Queue.getStats, Queue.tally, Queue.groupBy_status. simpl fmap.
  generalize (Queue.count_status queueId PENDING s)
             (Queue.count_status queueId RUNNING s)
             (Queue.count_status queueId COMPLETED s)
             (Queue.count_status queueId FAILED s)
             (Queue.count_status queueId STALLED s)
             (Queue.count_status queueId CANCELLED s).
  intros p r c f st x.
  rewrite !filter_cons, filter_nil. simpl.
  repeat case_decide; simpl; repeat split; lia.
Qed.

(** X13. [getStats] agrees with [countByQueue], in whatever order the
    database returns the groups: [totalJobs] is the number of jobs of the
    queue and each of the five other fields is the number of its jobs with
    that status.  CANCELLED jobs are part of [totalJobs] but of no other
    field, so the five fields add up to [totalJobs] less the cancelled
    jobs. *)
Theorem getStats_counts (queueId : Z) (s : Store) (counts : list (JobStatus * Z)) :
  counts ≡ₚ Queue.groupBy_status queueId s →
  let stats := Queue.tally counts in
  stats = Queue.getStats queueId s
  ∧ Queue.totalJobs stats = Job.countByQueue queueId None s
  ∧ Queue.pendingJobs stats = Job.countByQueue queueId (Some PENDING) s
  ∧ Queue.runningJobs stats = Job.countByQueue queueId (Some RUNNING) s
  ∧ Queue.completedJobs stats = Job.countByQueue queueId (Some COMPLETED) s
  ∧ Queue.failedJobs stats = Job.countByQueue queueId (Some FAILED) s
  ∧ Queue.stalledJobs stats = Job.countByQueue queueId (Some STALLED) s
  ∧ Queue.pendingJobs stats + Queue.runningJobs stats
    + Queue.completedJobs stats + Queue.failedJobs stats
    + Queue.stalledJobs stats
    = Queue.totalJobs stats - Job.countByQueue queueId (Some CANCELLED) s.
Proof.
  intros Hp stats.
  assert (Heq : stats = Queue.getStats queueId s).
  { unfold stats, Queue.getStats, Queue.tally. symmetry.
    apply foldl_add_item_perm; [by symmetry | apply groupBy_status_NoDup]. }
  split; [exact Heq |]. rewrite Heq.
  destruct (tally_groupBy queueId s) as (Ht & Hpe & Hru & Hco & Hfa & Hsta).
  rewrite !count_status_countByQueue in *.
  rewrite Ht, Hpe, Hru, Hco, Hfa, Hsta, (countByQueue_split queueId s).
  repeat split; lia.
Qed.

Lemma getStats_counts_witness :
  let stats := Queue.tally (reverse (Queue.groupBy_status 1 ex_store)) in
  stats = Queue.getStats 1 ex_store
  ∧ Queue.totalJobs stats = Job.countByQueue 1 None ex_store
  ∧ Queue.pendingJobs stats = Job.countByQueue 1 (Some PENDING) ex_store
  ∧ Queue.runningJobs stats = Job.countByQueue 1 (Some RUNNING) ex_store
  ∧ Queue.completedJobs stats = Job.countByQueue 1 (Some COMPLETED) ex_store
  ∧ Queue.failedJobs stats = Job.countByQueue 1 (Some FAILED) ex_store
  ∧ Queue.stalledJobs stats = Job.countByQueue 1 (Some STALLED) ex_store
  ∧ Queue.pendingJobs stats + Queue.runningJobs stats
    + Queue.completedJobs stats + Queue.failedJobs stats
    + Queue.stalledJobs stats
    = Queue.totalJobs stats - Job.countByQueue 1 (Some CANCELLED) ex_store.
Proof.
  apply (getStats_counts 1 ex_store (reverse (Queue.groupBy_status 1 ex_store))).
  apply reverse_Permutation.
Defined.

(** ** Listings *)

Lemma listByQueue_page queueId status page pageSize s :
  1 ≤ page → 0 ≤ default 20 pageSize →
  Job.listByQueue queueId status (Some page) pageSize s
  = Ok (Job.listed
          <$> take (Z.to_nat (default 20 pageSize))
                (drop (Z.to_nat ((page - 1) * default 20 pageSize))
                   (merge_sort Job.list_le
                      (filter (Job.in_queue queueId status) (jobs s))))).
Proof.
  intros Hp Hk. unfold Job.listByQueue, Job.window. simpl default.
  destruct (Z.ltb_spec ((page - 1) * default 20 pageSize) 0); [nia |].
  destruct (Z.leb_spec 0 (default 20 pageSize)); [reflexivity | lia].
Qed.

Lemma pages_take queueId status pageSize s n :
  0 ≤ default 20 pageSize →
  pages queueId status pageSize n s
  = Job.listed
      <$> take (n * Z.to_nat (default 20 pageSize))
            (merge_sort Job.list_le (filter (Job.in_queue queueId status) (jobs s))).
Proof.
  intros Hk. induction n as [|n IH]; [reflexivity |].
  simpl pages. rewrite IH, listByQueue_page by lia.
  rewrite <- fmap_app. f_equal.
  replace (Z.to_nat ((Z.of_nat (S n) - 1) * default 20 pageSize))
    with (n * Z.to_nat (default 20%Z pageSize))%nat by nia.
  rewrite take_take_drop. f_equal. lia.
Qed.

(** X14. Paging through [listByQueue] with a positive page size, on a store
    that does not change: pages 1 to [n], when they have room for as many
    jobs as [countByQueue] counts, hold every job of the queue (with the
    status asked for) once, in the order of the listing; a page holds at
    most [pageSize] jobs, a page after [n] is empty, and a page before 1 is
    refused. *)
Theorem listByQueue_pages (queueId : Z) (status : option JobStatus)
    (pageSize : option Z) (n : nat) (s : Store) :
  0 < default 20 pageSize →
  Job.countByQueue queueId status s ≤ Z.of_nat n * default 20 pageSize →
  pages queueId status pageSize n s
    = Job.listed
        <$> merge_sort Job.list_le (filter (Job.in_queue queueId status) (jobs s))
  ∧ pages queueId status pageSize n s
    ≡ₚ Job.listed <$> filter (Job.in_queue queueId status) (jobs s)
  ∧ (∀ page, 1 ≤ page →
       ∃ l, Job.listByQueue queueId status (Some page) pageSize s = Ok l
         ∧ Z.of_nat (length l) ≤ default 20 pageSize)
  ∧ (∀ page, Z.of_nat n < page →
       Job.listByQueue queueId status (Some page) pageSize s = Ok [])
  ∧ (∀ page, page < 1 →
       Job.listByQueue queueId status (Some page) pageSize s
       = Throw (Wrapped "Error listing jobs" NegativeSkip)).
Proof.
  intros Hk Hn. unfold Job.countByQueue in Hn.
  set (sorted := merge_sort Job.list_le
                   (filter (Job.in_queue queueId status) (jobs s))).
  assert (Hlen : length sorted = length (filter (Job.in_queue queueId status) (jobs s)))
    by (unfold sorted; by rewrite merge_sort_Permutation).
  assert (Hall : pages queueId status pageSize n s = Job.listed <$> sorted).
  { rewrite pages_take by lia. fold sorted. rewrite take_ge; [reflexivity |]. nia. }
  split; [exact Hall |]. split; [| split; [| split]].
  - rewrite Hall. unfold sorted. by rewrite merge_sort_Permutation.
  - intros page Hp. rewrite listByQueue_page by lia. eexists. split; [reflexivity |].
    rewrite length_fmap, length_take. lia.
  - intros page Hp. rewrite listByQueue_page by lia. fold sorted.
    rewrite drop_ge; [by rewrite take_nil |]. nia.
  - intros page Hp. unfold Job.listByQueue, Job.window. simpl default.
    destruct (Z.ltb_spec ((page - 1) * default 20 pageSize) 0); [reflexivity | nia].
Qed.

Lemma listByQueue_pages_witness :
  pages 1 None (Some 2) 3 ex_store
    = Job.listed <$> merge_sort Job.list_le (filter (Job.in_queue 1 None) (jobs ex_store))
  ∧ pages 1 None (Some 2) 3 ex_store
    ≡ₚ Job.listed <$> filter (Job.in_queue 1 None) (jobs ex_store)
  ∧ (∀ page, 1 ≤ page →
       ∃ l, Job.listByQueue 1 None (Some page) (Some 2) ex_store = Ok l
         ∧ Z.of_nat (length l) ≤ 2)
  ∧ (∀ page, 3 < page → Job.listByQueue 1 None (Some page) (Some 2) ex_store = Ok [])
  ∧ (∀ page, page < 1 →
       Job.listByQueue 1 None (Some page) (Some 2) ex_store
       = Throw (Wrapped "Error listing jobs" NegativeSkip)).
Proof.
  apply (listByQueue_pages 1 None (Some 2) 3 ex_store).
  - simpl. lia.
  - vm_compute. discriminate.
Defined.

(** ** Reading the logs back *)

Lemma fmap_inj_on {A B} (f : A → B) (l : list A) x y :
  NoDup (f <$> l) → x ∈ l → y ∈ l → f x = f y → x = y.
Proof.
  intros Hnd H1 H2 Heq.
  apply list_elem_of_lookup in H1 as [i1 H1], H2 as [i2 H2].
  assert (i1 = i2) as ->.
  { eapply NoDup_lookup; [exact Hnd | |]; rewrite list_lookup_fmap.
    - rewrite H1. reflexivity.
    - rewrite H2. simpl. congruence. }
  congruence.
Qed.

Lemma Sorted_by_sequence (l : list LogRow.t) :
  Sorted Z.le (LogRow.sequence <$> l) → Sorted Job.seq_asc l.
Proof.
  induction l as [|x l IH]; intros H; [constructor |].
  simpl in H. apply Sorted_inv in H as [Hs Hh]. constructor; [auto |].
  destruct l; [constructor |]. simpl in Hh. apply HdRel_inv in Hh.
  constructor. exact Hh.
Qed.

(** The rows of a job that are numbered consecutively are in the order in
    which [getLogs] reads them. *)
Lemma merge_sort_seq_asc (l : list LogRow.t) a n :
  LogRow.sequence <$> l = seqZ a n → merge_sort Job.seq_asc l = l.
Proof.
  intros Hseq.
  assert (Transitive Job.seq_asc) by (intros x y z; unfold Job.seq_asc; lia).
  assert (Total Job.seq_asc) by (intros x y; unfold Job.seq_asc; lia).
  apply (Sorted_unique_strong Job.seq_asc).
  - intros x1 x2 H1 H2 H12 H21.
    rewrite (merge_sort_Permutation Job.seq_asc l) in H1.
    apply (fmap_inj_on LogRow.sequence l); [rewrite Hseq; apply NoDup_seqZ | done..|].
    unfold Job.seq_asc in *. lia.
  - by apply Sorted_merge_sort.
  - apply Sorted_by_sequence. rewrite Hseq. apply Sorted_seqZ.
  - apply merge_sort_Permutation.
Qed.

Lemma appended_messages i calls :
  LogRow.message <$> appended i calls = fst <$> calls.
Proof.
  induction calls as [|c calls IH] using rev_ind; [reflexivity |].
  by rewrite appended_snoc, !fmap_app, IH.
Qed.

Lemma appended_times i calls :
  LogRow.created_at <$> appended i calls = snd <$> calls.
Proof.
  induction calls as [|c calls IH] using rev_ind; [reflexivity |].
  by rewrite appended_snoc, !fmap_app, IH.
Qed.

Lemma getLogs_stored (j : Job.t) (i : Z) (s : Store) (limit : option Z) :
  Job.id j = val i → i ≠ 0 →
  Job.getLogs limit j s
  = rethrow "Error getting logs"
      (match Job.window 0 limit (merge_sort Job.seq_asc (Job.logs_of i (job_logs s))) with
       | Ok logs => Ok (Job.log_entry <$> logs)
       | Throw e => Throw e
       end).
Proof.
  intros Hid Hi.
  assert (Hz : (i =? 0) = false) by (apply Z.eqb_neq, Hi).
  unfold Job.getLogs. rewrite Hid. simpl truthy_number. rewrite Hz. reflexivity.
Qed.

(** X15. What a job writes with [addLog] is what [getLogs] reads back.  For
    a stored job with [keepLogs ≥ 0] that has no log yet, after any calls
    of [addLog]: [getLogs()] returns the entries of the last calls that the
    retention keeps (all of them when [keepLogs] is 0, else the last
    [keepLogs]), in the order of the calls, with their messages and times
    and with consecutive sequence numbers; [getLogs(m)], [m ≥ 0], returns
    the first [m] of these. *)
Theorem getLogs_after_addLogs (j : Job.t) (i : Z) (s : Store)
    (calls : list (string * Z)) :
  Job.id j = val i → i ≠ 0 →
  0 ≤ Job.keepLogs j →
  (∃ r, r ∈ jobs s ∧ Row.id r = i) →
  Job.logs_of i (job_logs s) = [] →
  let s' := addLogs calls j s in
  let d := (length calls - kept (Job.keepLogs j) (length calls))%nat in
  ∃ logs, Job.getLogs None j s' = Ok logs
    ∧ Job.l_message <$> logs = fst <$> drop d calls
    ∧ Job.l_created_at <$> logs = snd <$> drop d calls
    ∧ Job.l_sequence <$> logs
      = seqZ (Z.of_nat d + 1) (Z.of_nat (length calls) - Z.of_nat d)
    ∧ ∀ m, 0 ≤ m → Job.getLogs (Some m) j s' = Ok (take (Z.to_nat m) logs).
Proof.
  intros Hid Hi HK Hrow Hempty s' d.
  destruct (addLogs_window j i Hid Hi HK calls s Hrow Hempty) as [_ Hl].
  fold s' d in Hl.
  assert (Hd : (d ≤ length calls)%nat) by (unfold d; lia).
  assert (Hseq : LogRow.sequence <$> Job.logs_of i (job_logs s')
                 = seqZ (Z.of_nat d + 1) (Z.of_nat (length calls) - Z.of_nat d)).
  { rewrite Hl, fmap_drop, appended_sequences, drop_seqZ by lia. f_equal; lia. }
  pose proof (merge_sort_seq_asc _ _ _ Hseq) as Hsorted.
  exists (Job.log_entry <$> Job.logs_of i (job_logs s')).
  split; [| split; [| split; [| split]]].
  - rewrite (getLogs_stored j i s' None Hid Hi), Hsorted. reflexivity.
  - rewrite <- list_fmap_compose, Hl.
    rewrite (fmap_drop fst), <- (appended_messages i), <- fmap_drop. reflexivity.
  - rewrite <- list_fmap_compose, Hl.
    rewrite (fmap_drop snd), <- (appended_times i), <- fmap_drop. reflexivity.
  - rewrite <- list_fmap_compose. exact Hseq.
  - intros m Hm. rewrite (getLogs_stored j i s' (Some m) Hid Hi), Hsorted.
    unfold Job.window. simpl.
    destruct (Z.leb_spec 0 m); [| lia]. simpl. by rewrite fmap_take.
Qed.

Lemma getLogs_after_addLogs_witness :
  ∃ logs, Job.getLogs None ex_job (addLogs ex_calls ex_job ex_store) = Ok logs
    ∧ Job.l_message <$> logs = fst <$> drop 2 ex_calls
    ∧ Job.l_created_at <$> logs = snd <$> drop 2 ex_calls
    ∧ Job.l_sequence <$> logs = seqZ 3 3
    ∧ ∀ m, 0 ≤ m →
        Job.getLogs (Some m) ex_job (addLogs ex_calls ex_job ex_store)
        = Ok (take (Z.to_nat m) logs).
Proof.
  apply (getLogs_after_addLogs ex_job 1 ex_store ex_calls).
  - reflexivity.
  - lia.
  - simpl. lia.
  - exists (ex_row 1 5 10 PENDING). split; [apply list_elem_of_here | reflexivity].
  - reflexivity.
Defined.

(** ** The slots of a worker *)

Lemma next_job_length q limit l :
  (length (Worker.next_job q limit l) ≤ limit)%nat.
Proof. unfold Worker.next_job. rewrite length_fmap, length_take. lia. Qed.

Lemma lease_returning_length q limit lockToken now l :
  NoDup (Row.id <$> l) →
  (length (Worker.lease q limit lockToken now l).2 ≤ limit)%nat.
Proof.
  intros Hnd.
  pose proof (lease_returning_NoDup q limit lockToken now l Hnd) as Hret.
  etransitivity; [| apply (next_job_length q limit l)].
  rewrite <- (length_fmap Row.id). apply submseteq_length, NoDup_submseteq; [exact Hret |].
  intros i Hi. apply list_elem_of_fmap in Hi as (r & -> & Hr).
  unfold Worker.lease in Hr. simpl in Hr.
  by apply list_elem_of_filter in Hr as [Hin _].
Qed.

(** X16. [fillConcurrency] never takes more jobs than the worker has free
    slots: the batch has at most [concurrency - activeJobs.size] jobs, the
    active set only grows, by the ids of the batch, and stays within
    [concurrency] when it was; a worker without a free slot leases nothing
    and leaves the store as it is. *)
Theorem fillConcurrency_bound (lockToken : string) (now : Z) (w : Worker.t)
    (s : Store) (w' : Worker.t) (batch : list Job.t) (s' : Store) :
  NoDup (Row.id <$> jobs s) →
  Z.of_nat (size (Worker.activeJobs w)) ≤ Worker.concurrency w →
  Worker.fillConcurrency lockToken now w s = Ok (w', batch, s') →
  Z.of_nat (length batch)
    ≤ Worker.concurrency w - Z.of_nat (size (Worker.activeJobs w))
  ∧ Worker.activeJobs w'
    = Worker.activeJobs w ∪ list_to_set (batch_ids batch)
  ∧ Z.of_nat (size (Worker.activeJobs w')) ≤ Worker.concurrency w
  ∧ Worker.concurrency w' = Worker.concurrency w
  ∧ (Z.of_nat (size (Worker.activeJobs w)) = Worker.concurrency w →
     batch = [] ∧ s' = s ∧ w' = w).
Proof.
  intros Hnd Hsize. unfold Worker.fillConcurrency.
  set (slots := Worker.concurrency w - Z.of_nat (size (Worker.activeJobs w))).
  destruct (Z.leb_spec slots 0) as [Hfull | Hfree].
  - intros [= <- <- <-]. simpl. split; [lia |].
    split; [change (list_to_set (batch_ids [])) with (∅ : gset Z);
            by rewrite (right_id_L ∅ (∪)) |].
    split; [exact Hsize |]. split; [reflexivity |]. done.
  - rewrite fetchAndLockNextJobs_lease by lia. cbv zeta.
    pose proof (lease_returning_length
                  (queue_id_of_name (Worker.queue_name w) s) (Z.to_nat slots)
                  lockToken now (jobs s) Hnd) as Hlen.
    pose proof (lease_returning_NoDup
                  (queue_id_of_name (Worker.queue_name w) s) (Z.to_nat slots)
                  lockToken now (jobs s) Hnd) as Hret.
    destruct (Worker.lease _ _ _ _ _) as [l' ret]. simpl in *.
    intros [= <- <- <-]. simpl. rewrite length_fmap.
    assert (Hb : Z.of_nat (length ret) ≤ slots) by lia.
    split; [exact Hb |]. split; [reflexivity |]. split; [| split; [reflexivity | lia]].
    rewrite size_union_alt.
    etransitivity;
      [apply inj_le, Nat.add_le_mono_l, subseteq_size, subseteq_difference_l; reflexivity |].
    change ((λ j, nullish (Job.id j) 0) <$> (Worker.job_of_row <$> ret))
      with (batch_ids (Worker.job_of_row <$> ret)).
    rewrite batch_ids_rows, size_list_to_set, length_fmap by exact Hret.
    unfold slots in Hb. lia.
Qed.

Lemma fillConcurrency_bound_witness :
  ∃ w' batch s',
    Worker.fillConcurrency "tok" 100 ex_worker ex_store = Ok (w', batch, s')
    ∧ Z.of_nat (length batch)
      ≤ Worker.concurrency ex_worker - Z.of_nat (size (Worker.activeJobs ex_worker))
    ∧ Worker.activeJobs w'
      = Worker.activeJobs ex_worker ∪ list_to_set (batch_ids batch)
    ∧ Z.of_nat (size (Worker.activeJobs w')) ≤ Worker.concurrency ex_worker
    ∧ Worker.concurrency w' = Worker.concurrency ex_worker
    ∧ (Z.of_nat (size (Worker.activeJobs ex_worker)) = Worker.concurrency ex_worker →
       batch = [] ∧ s' = ex_store ∧ w' = ex_worker).
Proof.
  eexists _, _, _. split; [reflexivity |].
  apply (fillConcurrency_bound "tok" 100 ex_worker ex_store).
  - apply (bool_decide_unpack _). vm_compute. exact I.
  - vm_compute. discriminate.
  - reflexivity.
Defined.
